(** * A shallow embedding of the multilingual word tokenizer

    The development follows the layout of the package:
    - [JS]          the fragment of ECMAScript strings, arrays and values the
                    code relies on (UTF-16 code units, [slice], [startsWith],
                    [endsWith], [trim], truthiness, property lookup);
    - [Stemmer]     [src/utils/stemmer.js];
    - [Thai]        [src/languages/thai.js];
    - [Tokenizer]   [src/tokenizer.js].

    Strings are sequences of UTF-16 code units, as in the language: [text[i]],
    [length], [slice] and the regular expressions without the [u] flag all
    count code units, while the universal word pattern (flag [u]) works on
    code points. *)

From stdpp Require Import gmap list strings.
From Equations Require Import Equations.
From Stdlib Require Import ZArith NArith Lia.

(** ** The ECMAScript fragment *)

Module JS.

(** A string literal of the source, over Basic Latin. *)
Definition str (s : string) : list N :=
  Ascii.N_of_ascii <$> String.list_ascii_of_string s.

(** [Array.prototype.slice] and [String.prototype.slice]: a negative index
    counts from the end, and both are clamped to the bounds. *)
Definition clamp (len : nat) (k : Z) : nat :=
  if (k <? 0)%Z then Z.to_nat (Z.max (Z.of_nat len + k) 0)
  else Nat.min (Z.to_nat k) len.

Definition slice {A} (l : list A) (first last : Z) : list A :=
  let from := clamp (length l) first in
  let to := clamp (length l) last in
  take (to - from) (drop from l).

(** [s.slice(first)]: up to the end. *)
Definition slice_from {A} (l : list A) (first : Z) : list A :=
  drop (clamp (length l) first) l.

(** [s.startsWith(w)] for string arguments. *)
Fixpoint startsWith (s w : list N) {struct w} : bool :=
  match w, s with
  | [], _ => true
  | _ :: _, [] => false
  | b :: w', a :: s' => (a =? b)%N && startsWith s' w'
  end.

(** [s.endsWith(w)]: the last [w.length] code units of [s] are [w]. *)
Definition endsWith (s w : list N) : bool :=
  (length w <=? length s) && bool_decide (drop (length s - length w) s = w).

(** [s[i]]: the string of the code unit at index [i]; [None] stands for
    [undefined]. *)
Definition charAt (s : list N) (i : nat) : option (list N) :=
  (λ c, [c]) <$> s !! i.

(** [array.includes(x)] on an array of strings. *)
Definition includes (l : list (list N)) (x : list N) : bool :=
  bool_decide (x ∈ l).

(** [array.join(sep)]. *)
Fixpoint join (sep : list N) (l : list (list N)) : list N :=
  match l with
  | [] => []
  | [x] => x
  | x :: l' => x ++ sep ++ join sep l'
  end.

(** White space and line terminators, the code units [trim] strips. *)
Definition isWhiteSpace (c : N) : bool :=
  ((9 <=? c) && (c <=? 13) || (c =? 32) || (c =? 0xA0) || (c =? 0x1680)
   || (0x2000 <=? c) && (c <=? 0x200A)
   || (c =? 0x2028) || (c =? 0x2029) || (c =? 0x202F) || (c =? 0x205F)
   || (c =? 0x3000) || (c =? 0xFEFF))%N.

Fixpoint trimStart (s : list N) : list N :=
  match s with
  | c :: s' => if isWhiteSpace c then trimStart s' else s
  | [] => []
  end.

Definition trim (s : list N) : list N :=
  reverse (trimStart (reverse (trimStart s))).

(** The values that reach the code: the arguments of the entry points and
    the property values of the frequency object.  [VNumber] carries the
    integral numbers; [VObject] is any object or function, with the string
    its conversion to a primitive yields. *)
Inductive value :=
| VUndefined
| VNull
| VBoolean (b : bool)
| VNumber (n : Z)
| VNaN
| VString (s : list N)
| VObject (repr : list N).

(** ToBoolean. *)
Definition truthy (v : value) : bool :=
  match v with
  | VUndefined | VNull | VNaN => false
  | VBoolean b => b
  | VNumber n => negb (n =? 0)%Z
  | VString s => negb (bool_decide (s = []))
  | VObject _ => true
  end.

(** [typeof v === "string"]. *)
Definition isString (v : value) : bool :=
  match v with VString _ => true | _ => false end.

(** [a || b]. *)
Definition or_else (a b : value) : value := if truthy a then a else b.

(** [v + 1]: numeric addition, or concatenation with ["1"] once the left
    operand converts to a string. *)
Definition plus_one (v : value) : value :=
  match v with
  | VUndefined | VNaN => VNaN
  | VNull => VNumber 1
  | VBoolean b => VNumber (if b then 2 else 1)
  | VNumber n => VNumber (n + 1)
  | VString s => VString (s ++ str "1")
  | VObject repr => VString (repr ++ str "1")
  end.

(** General categories of code points, as far as the word pattern tells
    them apart: [\p{L}], [\p{M}], [\p{N}] and the rest. *)
Inductive category := Letter | Mark | Number | Other.

#[global] Instance category_eq_dec : EqDecision category.
Proof. solve_decision. Defined.

#[global] Instance value_eq_dec : EqDecision value.
Proof. solve_decision. Defined.

(** What the code takes from the engine and the Unicode database:
    [String.prototype.toLowerCase] and the general category of a code
    point. *)
Class Engine := {
  toLowerCase : list N → list N;
  general_category : N → category;
}.

(** Lowering of one Basic Latin code unit. *)
Definition lower_unit (c : N) : N :=
  if ((65 <=? c) && (c <=? 90))%N then (c + 32)%N else c.

Definition latin_category (c : N) : category :=
  if ((65 <=? c) && (c <=? 90) || (97 <=? c) && (c <=? 122))%N then Letter
  else if ((48 <=? c) && (c <=? 57))%N then Number
  else Other.

Definition isBasicLatin (s : list N) : Prop := Forall (λ c, (c < 128)%N) s.

(** An engine is faithful on Basic Latin when it lowers and classifies the
    code units below 128 as the standard prescribes. *)
Class BasicLatin (E : Engine) : Prop := {
  toLowerCase_latin s : isBasicLatin s → toLowerCase s = lower_unit <$> s;
  general_category_latin c : (c < 128)%N → general_category c = latin_category c;
}.

(** The engine restricted to Basic Latin: code units from 128 on are left
    alone and unclassified. *)
Definition latin_engine : Engine :=
  {| toLowerCase s := lower_unit <$> s;
     general_category c := if (c <? 128)%N then latin_category c else Other |}.

End JS.

Import JS.

(** ** [src/utils/stemmer.js] *)

Module Stemmer.

Section WithEngine.
Context {E : Engine}.

(** [/[aeiou]/.test(s)]. *)
Definition hasVowel (s : list N) : bool :=
  existsb (λ c, bool_decide (c ∈ str "aeiou")) s.

Definition step1a (word : list N) : list N :=
  if endsWith word (str "sses") then slice word 0 (-2)
  else if endsWith word (str "ies") then slice word 0 (-2)
  else if endsWith word (str "ss") then word
  else if endsWith word (str "s") then slice word 0 (-1)
  else word.

Definition step1b (word : list N) : list N :=
  if endsWith word (str "eed") then slice word 0 (-1)
  else if endsWith word (str "ed") && hasVowel (slice word 0 (-2))
          || endsWith word (str "ing") && hasVowel (slice word 0 (-3))
  then
    let word := if endsWith word (str "ed") then slice word 0 (-2)
                else slice word 0 (-3) in
    if endsWith word (str "at") || endsWith word (str "bl")
       || endsWith word (str "iz")
    then word ++ str "e"
    else if (2 <? length word)
            && bool_decide (charAt word (length word - 1)
                            = charAt word (length word - 2))
            && negb (bool_decide (charAt word (length word - 1)
                                  ∈ [Some (str "l"); Some (str "s"); Some (str "z")]))
    then slice word 0 (-1)
    else word
  else word.

Definition step1c (word : list N) : list N :=
  if endsWith word (str "y") && (2 <? length word)
     && negb (hasVowel (default [] (charAt word (length word - 2))))
  then slice word 0 (-1) ++ str "i"
  else word.

(** [stemToken(token)] on a string; the empty string is falsy. *)
Definition stemToken (token : list N) : list N :=
  if bool_decide (token = []) then []
  else step1c (step1b (step1a (toLowerCase token))).

End WithEngine.

End Stemmer.

Import Stemmer.

(** ** [src/languages/thai.js] *)

Module Thai.

(** [/[\u0E00-\u0E7F]/], [/[\u0E30-\u0E3A\u0E40-\u0E45]/] and
    [/[\u0E47-\u0E4E]/], on one code unit. *)
Definition thaiPattern (c : N) : bool :=
  ((0x0E00 <=? c) && (c <=? 0x0E7F))%N.

Definition thaiVowelPattern (c : N) : bool :=
  ((0x0E30 <=? c) && (c <=? 0x0E3A) || (0x0E40 <=? c) && (c <=? 0x0E45))%N.

Definition thaiToneMarkPattern (c : N) : bool :=
  ((0x0E47 <=? c) && (c <=? 0x0E4E))%N.

(** [pattern.test(s)] where [s] is a string of at most one code unit
    ([nextChar] is the empty string at the end of the text). *)
Definition test (pattern : N → bool) (s : option N) : bool :=
  from_option pattern false s.

Definition push (tokens : list (list N)) (token : list N) : list (list N) :=
  tokens ++ [token].

(** The [for] loop of [simpleTokenize]: [text] is what is left from index
    [i] on, [tokens] and [currentToken] are the two variables. *)
Fixpoint simpleLoop (text : list N) (tokens : list (list N))
    (currentToken : list N) : list (list N) :=
  match text with
  | [] =>
      if bool_decide (currentToken = []) then tokens
      else push tokens currentToken
  | char :: rest =>
      if (char =? 32)%N || negb (thaiPattern char) then
        let tokens :=
          if bool_decide (currentToken = []) then tokens
          else push tokens currentToken in
        let tokens :=
          if bool_decide (trim [char] = []) then tokens
          else push tokens [char] in
        simpleLoop rest tokens []
      else
        let currentToken := currentToken ++ [char] in
        let nextChar := head rest in
        if negb (thaiVowelPattern char) && negb (thaiToneMarkPattern char)
           && test thaiVowelPattern nextChar
        then simpleLoop rest (push tokens currentToken) []
        else simpleLoop rest tokens currentToken
  end.

Definition simpleTokenize (text : list N) : list (list N) :=
  simpleLoop text [] [].

(** The [for ... of] loop over the dictionary, in insertion order: the pair
    is ([found], [longestWord]). *)
Definition scanWord (remaining : list N) (acc : bool * list N)
    (word : list N) : bool * list N :=
  if startsWith remaining word && (length acc.2 <? length word)
  then (true, word)
  else acc.

Definition longestMatch (dictionary : list (list N)) (remaining : list N)
    : bool * list N :=
  foldl (scanWord remaining) (false, []) dictionary.

(** The inner [while] loop that skips spaces. *)
Fixpoint skipSpaces (remaining : list N) : list N :=
  match remaining with
  | c :: rest => if (c =? 32)%N then skipSpaces rest else remaining
  | [] => []
  end.

(** One iteration of the outer [while] loop: the token pushed and the new
    value of [remaining]. *)
Definition iteration (dictionary : list (list N)) (remaining : list N)
    : list N * list N :=
  let '(found, longestWord) := longestMatch dictionary remaining in
  if found
  then (longestWord,
        skipSpaces (slice_from remaining (Z.of_nat (length longestWord))))
  else (default [] (charAt remaining 0), skipSpaces (slice_from remaining 1)).

Lemma skipSpaces_length remaining :
  length (skipSpaces remaining) ≤ length remaining.
Proof.
  induction remaining as [|c rest IH]; simpl; [lia|].
  destruct (c =? 32)%N; simpl; lia.
Qed.

Lemma scanWord_found remaining acc word :
  (acc.1 = true → 0 < length acc.2) →
  (scanWord remaining acc word).1 = true →
  0 < length (scanWord remaining acc word).2.
Proof.
  unfold scanWord. intros Hacc.
  destruct (startsWith remaining word && (length acc.2 <? length word)) eqn:Hc;
    [|exact Hacc].
  simpl. intros _. apply andb_true_iff in Hc as [_ Hlt].
  apply Nat.ltb_lt in Hlt. lia.
Qed.

Lemma foldl_scanWord_found remaining dictionary acc :
  (acc.1 = true → 0 < length acc.2) →
  (foldl (scanWord remaining) acc dictionary).1 = true →
  0 < length (foldl (scanWord remaining) acc dictionary).2.
Proof.
  revert acc. induction dictionary as [|word dictionary IH]; intros acc Hacc.
  - exact Hacc.
  - simpl. apply IH. by apply scanWord_found.
Qed.

Lemma longestMatch_found dictionary remaining :
  (longestMatch dictionary remaining).1 = true →
  0 < length (longestMatch dictionary remaining).2.
Proof. apply foldl_scanWord_found. discriminate. Qed.

Lemma slice_from_length (remaining : list N) (k : nat) :
  0 < k → remaining ≠ [] →
  length (slice_from remaining (Z.of_nat k)) < length remaining.
Proof.
  intros Hk Hne. unfold slice_from, clamp.
  destruct remaining as [|c rest]; [done|].
  rewrite length_drop.
  destruct (Z.ltb_spec (Z.of_nat k) 0); simpl length; lia.
Qed.

(** Every iteration leaves strictly less text than it found. *)
Lemma iteration_decreases dictionary remaining :
  remaining ≠ [] →
  length (iteration dictionary remaining).2 < length remaining.
Proof.
  intros Hne. unfold iteration.
  pose proof (longestMatch_found dictionary remaining) as Hpos.
  destruct (longestMatch dictionary remaining) as [found longestWord].
  destruct found; simpl in *.
  - eapply Nat.le_lt_trans; [apply skipSpaces_length|].
    apply slice_from_length; auto.
  - eapply Nat.le_lt_trans; [apply skipSpaces_length|].
    apply (slice_from_length remaining 1); [lia|done].
Qed.

(** The outer [while (remaining.length > 0)] loop. *)
Equations? segmentLoop (dictionary : list (list N)) (remaining : list N)
    (tokens : list (list N)) : list (list N) by wf (length remaining) lt :=
  segmentLoop dictionary [] tokens := tokens;
  segmentLoop dictionary (c :: rest) tokens :=
    segmentLoop dictionary (iteration dictionary (c :: rest)).2
      (push tokens (iteration dictionary (c :: rest)).1).
Proof. by apply (iteration_decreases dictionary (c :: rest)). Qed.

(** [dictionaryTokenize(text, dictionary)]; the dictionary is a [Set] of
    strings in insertion order, [None] when it is [null]. *)
Definition dictionaryTokenize (text : list N)
    (dictionary : option (list (list N))) : list (list N) :=
  if bool_decide (text = []) then []
  else match dictionary with
       | None => simpleTokenize text
       | Some words =>
           if (length words =? 0) then simpleTokenize text
           else segmentLoop words text []
       end.

(** [Set.prototype.add] on a set kept in insertion order. *)
Definition setAdd (set : list (list N)) (x : list N) : list (list N) :=
  if bool_decide (x ∈ set) then set else set ++ [x].

(** [data.split(/\r?\n/)]: [line] is the line being read.  At a carriage
    return the pattern matches only if a line feed follows. *)
Fixpoint splitLines (data : list N) (line : list N) : list (list N) :=
  match data with
  | [] => [line]
  | c :: rest =>
      if (c =? 10)%N then line :: splitLines rest []
      else match rest with
           | c' :: rest' =>
               if (c =? 13)%N && (c' =? 10)%N
               then line :: splitLines rest' []
               else splitLines rest (line ++ [c])
           | [] => splitLines rest (line ++ [c])
           end
  end.

(** The body of [words.forEach] in the two loaders. *)
Definition addLine (dictionary : list (list N)) (word : list N)
    : list (list N) :=
  if bool_decide (trim word = []) then dictionary
  else setAdd dictionary (trim word).

(** [loadDictionarySync], as a function of the content of the file that
    [fs.readFileSync] returns. *)
Definition loadDictionarySync (data : list N) : list (list N) :=
  foldl addLine [] (splitLines data []).

End Thai.

Import Thai.

(** ** [src/tokenizer.js] *)

Module Tokenizer.

(** [this.options], after the constructor has filled in the defaults.
    [thaiDictionary] is [None] for [null]. *)
Record Options := {
  lowercase : bool;
  removeStopwords : bool;
  customStopwords : list (list N);
  stemming : bool;
  language : list N;
  thaiDictionary : option (list (list N));
}.

(** An instance: its options and its stopword [Set]. *)
Record Tokenizer := {
  options : Options;
  stopwords : gset (list N);
}.

(** The options of [new Tokenizer()]. *)
Definition defaults : Options :=
  {| lowercase := true; removeStopwords := false; customStopwords := [];
     stemming := false; language := str "en"; thaiDictionary := None |}.

(** *** The universal word pattern
    [/\p{L}+(?:\p{M}*\p{L}+)*|\p{N}+/gu] *)

Definition isHighSurrogate (c : N) : bool := ((0xD800 <=? c) && (c <=? 0xDBFF))%N.
Definition isLowSurrogate (c : N) : bool := ((0xDC00 <=? c) && (c <=? 0xDFFF))%N.

(** With the [u] flag the pattern reads code points: a surrogate pair is
    one character, a lone surrogate is itself. *)
Fixpoint codePoints (s : list N) : list N :=
  match s with
  | [] => []
  | hi :: s' =>
      match s' with
      | lo :: s'' =>
          if isHighSurrogate hi && isLowSurrogate lo
          then (0x10000 + (hi - 0xD800) * 0x400 + (lo - 0xDC00))%N
               :: codePoints s''
          else hi :: codePoints s'
      | [] => [hi]
      end
  end.

Definition codeUnits (cp : N) : list N :=
  if (cp <? 0x10000)%N then [cp]
  else [(0xD800 + (cp - 0x10000) / 0x400)%N;
        (0xDC00 + (cp - 0x10000) mod 0x400)%N].

(** The matcher as it runs over the text.  The categories are disjoint, so
    the greedy [\p{L}+] takes a whole run of letters, the group
    [\p{M}*\p{L}+] can only continue a word through marks that a letter
    follows, and backtracking never changes a match: a word in progress
    keeps the marks seen since its last letter aside until a letter
    confirms them. *)
Inductive matcher :=
| Idle
| InWord (word marks : list N)
| InDigits (digits : list N).

Definition flush (st : matcher) : list (list N) :=
  match st with
  | Idle => []
  | InWord word _ => [word]
  | InDigits digits => [digits]
  end.

Section WithEngine.
Context {E : Engine}.

Definition advance (st : matcher) (c : N) : matcher * list (list N) :=
  match general_category c, st with
  | Letter, InWord word marks => (InWord (word ++ marks ++ [c]) [], [])
  | Letter, _ => (InWord [c] [], flush st)
  | Mark, InWord word marks => (InWord word (marks ++ [c]), [])
  | Mark, _ => (Idle, flush st)
  | Number, InDigits digits => (InDigits (digits ++ [c]), [])
  | Number, _ => (InDigits [c], flush st)
  | Other, _ => (Idle, flush st)
  end.

Fixpoint matchRun (st : matcher) (cps : list N) : list (list N) :=
  match cps with
  | [] => flush st
  | c :: cps' => let '(st', out) := advance st c in out ++ matchRun st' cps'
  end.

(** [Array.from(text.matchAll(universalWordPattern), (m) => m[0])]. *)
Definition matchAll (text : list N) : list (list N) :=
  (λ m, m ≫= codeUnits) <$> matchRun Idle (codePoints text).

(** *** [tokenize] *)

(** The choice of the segmentation method. *)
Definition segment (t : Tokenizer) (text : list N) : list (list N) :=
  if bool_decide (language (options t) = str "th")
     && bool_decide (is_Some (thaiDictionary (options t)))
  then dictionaryTokenize text (thaiDictionary (options t))
  else matchAll text.

Definition lowercaseStage (t : Tokenizer) (tokens : list (list N))
    : list (list N) :=
  if lowercase (options t) && negb (bool_decide (language (options t) = str "th"))
  then toLowerCase <$> tokens
  else tokens.

Definition stopwordStage (t : Tokenizer) (tokens : list (list N))
    : list (list N) :=
  if removeStopwords (options t)
  then List.filter (λ token, negb (bool_decide (toLowerCase token ∈ stopwords t)))
         tokens
  else tokens.

Definition stemmable : list (list N) :=
  [str "en"; str "es"; str "fr"; str "it"; str "pt"; str "de"; str "nl"].

Definition stemmingStage (t : Tokenizer) (tokens : list (list N))
    : list (list N) :=
  if stemming (options t) && includes stemmable (language (options t))
  then stemToken <$> tokens
  else tokens.

Definition tokenize (t : Tokenizer) (text : value) : list (list N) :=
  if negb (truthy text) || negb (isString text) then []
  else match text with
       | VString s =>
           stemmingStage t (stopwordStage t (lowercaseStage t (segment t s)))
       | _ => []
       end.

(** *** [ngramTokenize] *)

(** The [for] loop: [i] is the index, [ngrams] the array being filled. *)
Equations? ngramLoop (tokens : list (list N)) (n i : Z)
    (ngrams : list (list N)) : list (list N)
    by wf (Z.to_nat (Z.of_nat (length tokens) - n - i + 1)) lt :=
  ngramLoop tokens n i ngrams with decide (i ≤ Z.of_nat (length tokens) - n)%Z := {
    | left _ =>
        ngramLoop tokens n (i + 1)
          (push ngrams (join (str " ") (slice tokens i (i + n))))
    | right _ => ngrams }.
Proof. lia. Qed.

Definition ngramTokenize (t : Tokenizer) (text : value) (n : Z)
    : list (list N) :=
  if negb (truthy text) || negb (isString text) || (n <? 1)%Z then []
  else ngramLoop (tokenize t text) n 0 [].

(** *** [getTokenFrequency] *)

(** The properties an object literal inherits from [Object.prototype]:
    the built-in functions, and the [__proto__] accessor, whose getter
    answers the prototype itself. *)
Definition nativeFunction (name : list N) : value :=
  VObject (str "function " ++ name ++ str "() { [native code] }").

Definition prototypeMethods : list (list N) :=
  [str "hasOwnProperty"; str "isPrototypeOf"; str "propertyIsEnumerable";
   str "toLocaleString"; str "toString"; str "valueOf";
   str "__defineGetter__"; str "__defineSetter__";
   str "__lookupGetter__"; str "__lookupSetter__"].

Definition objectPrototype (key : list N) : option value :=
  if bool_decide (key = str "constructor") then Some (nativeFunction (str "Object"))
  else if bool_decide (key ∈ prototypeMethods) then Some (nativeFunction key)
  else if bool_decide (key = str "__proto__") then Some (VObject (str "[object Object]"))
  else None.

(** [frequency[key]]: an own property, else the inherited one, else
    [undefined]. *)
Definition getProperty (frequency : gmap (list N) value) (key : list N)
    : value :=
  match frequency !! key with
  | Some v => v
  | None => default VUndefined (objectPrototype key)
  end.

(** [frequency[key] = v] for a primitive [v]: an own property is written,
    except that the [__proto__] setter drops a value that is no object. *)
Definition setProperty (frequency : gmap (list N) value) (key : list N)
    (v : value) : gmap (list N) value :=
  if bool_decide (key = str "__proto__") then frequency
  else <[key := v]> frequency.

Definition countToken (frequency : gmap (list N) value) (token : list N)
    : gmap (list N) value :=
  setProperty frequency token
    (plus_one (or_else (getProperty frequency token) (VNumber 0))).

Definition getTokenFrequency (t : Tokenizer) (text : value)
    : gmap (list N) value :=
  foldl countToken ∅ (tokenize t text).

(** *** The instance and its state *)

(** An argument that is expected to be an array: [Array.isArray] tells the
    two cases apart. *)
Inductive argument :=
| NotArray
| ArrayOf (items : list value).

Definition setStopwords (t : Tokenizer) (words : gset (list N)) : Tokenizer :=
  {| options := options t; stopwords := words |}.

Definition setDictionary (t : Tokenizer)
    (dictionary : option (list (list N))) : Tokenizer :=
  {| options := {| lowercase := lowercase (options t);
                   removeStopwords := removeStopwords (options t);
                   customStopwords := customStopwords (options t);
                   stemming := stemming (options t);
                   language := language (options t);
                   thaiDictionary := dictionary |};
     stopwords := stopwords t |}.

(** The options object as the caller passes it: [None] is a property left
    [undefined]. *)
Record GivenOptions := {
  given_lowercase : option bool;
  given_removeStopwords : option bool;
  given_customStopwords : option (list (list N));
  given_stemming : option bool;
  given_language : option (list N);
  given_thaiDictionary : option (list (list N));
}.

Definition fillOptions (given : GivenOptions) : Options :=
  {| lowercase := default true (given_lowercase given);
     removeStopwords := default false (given_removeStopwords given);
     customStopwords := default [] (given_customStopwords given);
     stemming := default false (given_stemming given);
     language := match given_language given with
                 | Some (c :: code) => c :: code
                 | _ => str "en"
                 end;
     thaiDictionary := given_thaiDictionary given |}.

(** The default English stopwords. *)
Definition englishStopwords : list (list N) :=
  [str "a"; str "an"; str "the"; str "and"; str "or"; str "but"; str "is";
   str "are"; str "was"; str "were"; str "be"; str "been"; str "being";
   str "in"; str "on"; str "at"; str "to"; str "for"; str "with"; str "by";
   str "about"; str "against"; str "between"; str "into"; str "through";
   str "during"; str "before"; str "after"; str "above"; str "below";
   str "from"; str "up"; str "down"; str "of"; str "off"; str "over";
   str "under"; str "again"; str "further"; str "then"; str "once";
   str "here"; str "there"; str "when"; str "where"; str "why"; str "how";
   str "all"; str "any"; str "both"; str "each"; str "few"; str "more";
   str "most"; str "other"; str "some"; str "such"; str "no"; str "nor";
   str "not"; str "only"; str "own"; str "same"; str "so"; str "than";
   str "too"; str "very"; str "i"; str "me"; str "my"; str "myself";
   str "we"; str "our"; str "ours"; str "ourselves"; str "you"; str "your";
   str "yours"; str "yourself"; str "yourselves"; str "he"; str "him";
   str "his"; str "himself"; str "she"; str "her"; str "hers"; str "herself";
   str "it"; str "its"; str "itself"; str "they"; str "them"; str "their";
   str "theirs"; str "themselves"; str "what"; str "which"; str "who";
   str "whom"; str "this"; str "that"; str "these"; str "those"; str "am";
   str "have"; str "has"; str "had"; str "having"; str "do"; str "does";
   str "did"; str "doing"; str "would"; str "should"; str "could";
   str "ought"; str "i'm"; str "you're"; str "he's"; str "she's"; str "it's";
   str "we're"; str "they're"; str "i've"; str "you've"; str "we've";
   str "they've"; str "i'd"; str "you'd"; str "he'd"; str "she'd";
   str "we'd"; str "they'd"; str "i'll"; str "you'll"; str "he'll";
   str "she'll"; str "we'll"; str "they'll"; str "isn't"; str "aren't";
   str "wasn't"; str "weren't"; str "hasn't"; str "haven't"; str "hadn't";
   str "doesn't"; str "don't"; str "didn't"; str "won't"; str "wouldn't";
   str "shan't"; str "shouldn't"; str "can't"; str "cannot"; str "couldn't";
   str "mustn't"; str "let's"; str "that's"; str "who's"; str "what's";
   str "here's"; str "there's"; str "when's"; str "where's"; str "why's";
   str "how's"].

(** [languageStopwords.forEach((word) => this.stopwords.add(word.toLowerCase()))]
    inside the [try]: an element without [toLowerCase] throws, the [catch]
    swallows the error, and the words added before it stay. *)
Fixpoint addLanguageStopwords (words : gset (list N)) (items : list value)
    : gset (list N) :=
  match items with
  | VString s :: rest => addLanguageStopwords ({[ toLowerCase s ]} ∪ words) rest
  | _ => words
  end.

(** [setupStopwords()]; [languageStopwords] is what
    [require("../data/stopwords/<language>.json")] gives, [None] when it
    throws. *)
Definition setupStopwords (o : Options) (languageStopwords : option argument)
    : gset (list N) :=
  let words := list_to_set englishStopwords in
  let words :=
    if bool_decide (language o = str "en") then words
    else match languageStopwords with
         | Some (ArrayOf items) => addLanguageStopwords words items
         | _ => words
         end in
  foldl (λ words word, {[ toLowerCase word ]} ∪ words) words
    (customStopwords o).

(** [new Tokenizer(options)]. *)
Definition construct (given : GivenOptions)
    (languageStopwords : option argument) : Tokenizer :=
  {| options := fillOptions given;
     stopwords := setupStopwords (fillOptions given) languageStopwords |}.

(** The body of [stopwords.forEach] in [addStopwords]. *)
Definition addStopword (words : gset (list N)) (word : value)
    : gset (list N) :=
  match word with
  | VString s => {[ toLowerCase s ]} ∪ words
  | _ => words
  end.

Definition addStopwords (t : Tokenizer) (stopwords' : argument) : Tokenizer :=
  match stopwords' with
  | ArrayOf items => setStopwords t (foldl addStopword (stopwords t) items)
  | NotArray => t
  end.

(** The body of [stopwords.forEach] in [removeStopwords]. *)
Definition deleteStopword (words : gset (list N)) (word : value)
    : gset (list N) :=
  match word with
  | VString s => words ∖ {[ toLowerCase s ]}
  | _ => words
  end.

(** The method [removeStopwords(stopwords)] (the option of the same name is
    the record field). *)
Definition removeStopwords' (t : Tokenizer) (stopwords' : argument)
    : Tokenizer :=
  match stopwords' with
  | ArrayOf items => setStopwords t (foldl deleteStopword (stopwords t) items)
  | NotArray => t
  end.

(** The body of [words.forEach] in [addThaiWords]. *)
Definition addThaiWord (dictionary : list (list N)) (word : value)
    : list (list N) :=
  match word with
  | VString s =>
      if bool_decide (trim s = []) then dictionary
      else setAdd dictionary (trim s)
  | _ => dictionary
  end.

Definition addThaiWords (t : Tokenizer) (words : argument) : Tokenizer :=
  let dictionary := default [] (thaiDictionary (options t)) in
  setDictionary t
    (Some match words with
          | ArrayOf items => foldl addThaiWord dictionary items
          | NotArray => dictionary
          end).

(** [loadThaiDictionarySync(filePath)]: the instance afterwards and the
    number returned; [file] is the content read, [None] when reading
    throws. *)
Definition loadThaiDictionarySync (t : Tokenizer) (file : option (list N))
    : Tokenizer * nat :=
  match file with
  | Some data =>
      (setDictionary t (Some (loadDictionarySync data)),
       length (loadDictionarySync data))
  | None => (t, 0)
  end.

End WithEngine.

End Tokenizer.

Import Tokenizer.

(** * Vocabulary of the statements *)

(** What the scan has established after any part of the dictionary. *)
Definition scanned (remaining : list N) (seen : list (list N))
    (acc : bool * list N) : Prop :=
  (∀ word, word ∈ seen → startsWith remaining word = true →
           length word ≤ length acc.2)
  ∧ (acc.1 = true → acc.2 ∈ seen ∧ startsWith remaining acc.2 = true
                    ∧ 0 < length acc.2)
  ∧ (acc.1 = false → acc.2 = []).

(** One pass through the outer loop, its condition included. *)
Definition whileStep (dictionary : list (list N))
    (st : list N * list (list N)) : list N * list (list N) :=
  match st.1 with
  | [] => st
  | _ :: _ => ((iteration dictionary st.1).2,
               push st.2 (iteration dictionary st.1).1)
  end.

(** A code unit that [trim] keeps. *)
Definition visible (c : N) : bool := negb (isWhiteSpace c).

(** The window of [n] tokens that starts at index [i]. *)
Definition window (tokens : list (list N)) (n i : nat) : list (list N) :=
  take n (drop i tokens).

(** How often [key] occurs among the tokens. *)
Definition occurrences (key : list N) (tokens : list (list N)) : nat :=
  length (filter (λ token, token = key) tokens).

(** The instance with the stemming option set to [b]. *)
Definition with_stemming (b : bool) (t : Tokenizer) : Tokenizer :=
  {| options := {| lowercase := lowercase (options t);
                   removeStopwords := removeStopwords (options t);
                   customStopwords := customStopwords (options t);
                   stemming := b;
                   language := language (options t);
                   thaiDictionary := thaiDictionary (options t) |};
     stopwords := stopwords t |}.

(** The options [{ language: code, stemming: true }]. *)
Definition stemming_for (code : list N) : Options :=
  {| lowercase := true; removeStopwords := false; customStopwords := [];
     stemming := true; language := code; thaiDictionary := None |}.

(** Sample instances. *)
Definition thai (dictionary : option (list (list N))) : Tokenizer :=
  {| options := {| lowercase := true; removeStopwords := false;
                   customStopwords := []; stemming := false;
                   language := str "th"; thaiDictionary := dictionary |};
     stopwords := ∅ |}.

Definition english : Tokenizer :=
  {| options := defaults; stopwords := ∅ |}.

(** A tokenizer for English text with one stopword and no folding. *)
Definition raw_case : Tokenizer :=
  {| options := {| lowercase := false; removeStopwords := true;
                   customStopwords := [str "the"]; stemming := false;
                   language := str "en"; thaiDictionary := None |};
     stopwords := {[ str "the" ]} |}.

(** A token of the heuristic segmenter: a run of Thai code units, or one
    visible code unit from outside the Thai block. *)
Definition simpleToken (token : list N) : Prop :=
  token ≠ []
  ∧ (Forall (λ c, thaiPattern c = true) token
     ∨ ∃ c, token = [c] ∧ thaiPattern c = false ∧ isWhiteSpace c = false).

(** Inside a token a vowel sign follows a vowel sign or a tone mark only. *)
Definition boundaryRule (token : list N) : Prop :=
  ∀ i a b, token !! i = Some a → token !! S i = Some b →
           thaiVowelPattern b = true →
           thaiVowelPattern a || thaiToneMarkPattern a = true.

(** The instance with the lowercase option set to [b]. *)
Definition with_lowercase (b : bool) (t : Tokenizer) : Tokenizer :=
  {| options := {| lowercase := b;
                   removeStopwords := removeStopwords (options t);
                   customStopwords := customStopwords (options t);
                   stemming := stemming (options t);
                   language := language (options t);
                   thaiDictionary := thaiDictionary (options t) |};
     stopwords := stopwords t |}.

(** The digits "1" appended, one per occurrence. *)
Definition ones (k : nat) : list N := concat (replicate k (str "1")).

(** The options [{ language: "th", removeStopwords: true }]. *)
Definition thai_given : GivenOptions :=
  {| given_lowercase := None; given_removeStopwords := Some true;
     given_customStopwords := None; given_stemming := None;
     given_language := Some (str "th"); given_thaiDictionary := None |}.

(** An entry as the loaders store it: non-empty and trimmed. *)
Definition properEntry (word : list N) : Prop := word ≠ [] ∧ trim word = word.

(** A dictionary as the loaders build it. *)
Definition wellFormed (dictionary : list (list N)) : Prop :=
  NoDup dictionary ∧ Forall properEntry dictionary.

(** The strings among the items of an array. *)
Definition strings (items : list value) : list (list N) :=
  omap (λ item, match item with VString s => Some s | _ => None end) items.

(** An item that [addThaiWords] passes over. *)
Definition blank (item : value) : Prop :=
  match item with VString s => trim s = [] | _ => True end.

(** A word that can be written on a line of its own. *)
Definition lineWord (word : list N) : Prop :=
  properEntry word ∧ 10%N ∉ word.

(** The part of [step1b] that follows the removal of "ed" or "ing". *)
Definition afterSuffix (w : list N) : list N :=
  if endsWith w (str "at") || endsWith w (str "bl") || endsWith w (str "iz")
  then w ++ str "e"
  else if (2 <? length w)
          && bool_decide (charAt w (length w - 1) = charAt w (length w - 2))
          && negb (bool_decide (charAt w (length w - 1)
                                ∈ [Some (str "l"); Some (str "s"); Some (str "z")]))
  then slice w 0 (-1)
  else w.

(** What the matcher has read and not yet given out. *)
Definition pending (st : matcher) : list N :=
  match st with
  | Idle => []
  | InWord word marks => word ++ marks
  | InDigits digits => digits
  end.

Section WordShapes.
Context {E : Engine}.

(** A run of letters and marks that begins and ends with a letter. *)
Definition letterRun (m : list N) : Prop :=
  Forall (λ c, general_category c = Letter ∨ general_category c = Mark) m
  ∧ (∃ c, head m = Some c ∧ general_category c = Letter)
  ∧ (∃ c, last m = Some c ∧ general_category c = Letter).

(** A non-empty run of digits. *)
Definition digitRun (m : list N) : Prop :=
  m ≠ [] ∧ Forall (λ c, general_category c = Number) m.

(** What the matcher holds while it runs. *)
Definition matcherOk (st : matcher) : Prop :=
  match st with
  | Idle => True
  | InWord word marks =>
      letterRun word ∧ Forall (λ c, general_category c = Mark) marks
  | InDigits digits => digitRun digits
  end.

End WordShapes.

(** ** The earlier single-file version

    The package still ships the file the modules were split from
    ([tokenizer.js] next to the example scripts).  Its segmenters, stemmer
    and frequency count are the code above, method for method; its
    stemming stage exempts th alone instead of naming the languages it
    serves. *)

Module Legacy.

Section WithEngine.
Context {E : Engine}.

Definition stemmingStage (t : Tokenizer) (tokens : list (list N))
    : list (list N) :=
  if stemming (options t) && negb (bool_decide (language (options t) = str "th"))
  then stemToken <$> tokens
  else tokens.

(** [dictionaryThaiTokenize(text)]. *)
Definition dictionaryThaiTokenize (t : Tokenizer) (text : list N)
    : list (list N) :=
  match thaiDictionary (options t) with
  | None => simpleTokenize text
  | Some words =>
      if (length words =? 0) then simpleTokenize text
      else segmentLoop words text []
  end.

(** [tokenizeThai(text)]. *)
Definition tokenizeThai (t : Tokenizer) (text : list N) : list (list N) :=
  if bool_decide (text = []) then []
  else if bool_decide (thaiDictionary (options t) = None)
       then simpleTokenize text
       else dictionaryThaiTokenize t text.

Definition tokenize (t : Tokenizer) (text : value) : list (list N) :=
  if negb (truthy text) || negb (isString text) then []
  else match text with
       | VString s =>
           let tokens :=
             if bool_decide (language (options t) = str "th")
                && bool_decide (is_Some (thaiDictionary (options t)))
             then tokenizeThai t s
             else matchAll s in
           let tokens :=
             if lowercase (options t)
                && negb (bool_decide (language (options t) = str "th"))
             then toLowerCase <$> tokens
             else tokens in
           let tokens :=
             if removeStopwords (options t)
             then List.filter
                    (λ token, negb (bool_decide (toLowerCase token ∈ stopwords t)))
                    tokens
             else tokens in
           stemmingStage t tokens
       | _ => []
       end.

End WithEngine.

End Legacy.

(** * Properties *)

(** ** The engine on Basic Latin *)

Lemma latin_engine_faithful : BasicLatin latin_engine.
Proof.
  split.
  - reflexivity.
  - intros c Hc. simpl. apply N.ltb_lt in Hc. by rewrite Hc.
Qed.

(** Closed instances of decidable side conditions. *)
Ltac by_evaluation := apply (bool_decide_unpack _); vm_compute; exact I.

(** ** The stemmer *)

(** C7: [stem("running")] is ["run"], and stemming that result again
    returns it unchanged.  The engine only has to lower Basic Latin text as
    the standard prescribes. *)
Theorem stem_running (E : Engine) (HE : BasicLatin E) :
  stemToken (str "running") = str "run"
  ∧ stemToken (stemToken (str "running")) = stemToken (str "running").
Proof.
  assert (Hrunning : stemToken (str "running") = str "run").
  { unfold stemToken. rewrite toLowerCase_latin by by_evaluation.
    vm_compute. reflexivity. }
  split; [exact Hrunning|].
  rewrite Hrunning. unfold stemToken.
  rewrite toLowerCase_latin by by_evaluation.
  vm_compute. reflexivity.
Qed.

Lemma stem_running_witness :
  stemToken (E := latin_engine) (str "running") = str "run"
  ∧ stemToken (E := latin_engine) (stemToken (E := latin_engine) (str "running"))
    = stemToken (E := latin_engine) (str "running").
Proof. exact (stem_running latin_engine latin_engine_faithful). Defined.

(** ** The dictionary segmenter *)

Lemma startsWith_prefix s w : startsWith s w = true ↔ w `prefix_of` s.
Proof.
  revert s. induction w as [|b w IH]; intros s; simpl.
  - split; [intros _; apply prefix_nil|done].
  - destruct s as [|a s].
    + split; [done|]. intros [k Hk]. discriminate.
    + rewrite andb_true_iff, N.eqb_eq, IH. split.
      * intros [-> Hp]. by apply prefix_cons.
      * intros Hp. split; [by apply prefix_cons_inv_1 in Hp|].
        by apply prefix_cons_inv_2 in Hp.
Qed.

Lemma scanWord_scanned remaining seen acc word :
  scanned remaining seen acc →
  scanned remaining (seen ++ [word]) (scanWord remaining acc word).
Proof.
  intros (Hmax & Hfound & Hnone). unfold scanWord.
  destruct (startsWith remaining word) eqn:Hpre; simpl.
  - destruct (Nat.ltb_spec (length acc.2) (length word)) as [Hlt|Hge].
    + split_and!; simpl.
      * intros w [Hw| ->%list_elem_of_singleton]%elem_of_app Hw'; [|lia].
        specialize (Hmax w Hw Hw'). lia.
      * intros _. split_and!; [|done|lia].
        apply elem_of_app. right. by apply list_elem_of_singleton.
      * done.
    + split_and!.
      * intros w [Hw| ->%list_elem_of_singleton]%elem_of_app Hw'; [|lia].
        by apply Hmax.
      * intros Hacc. destruct (Hfound Hacc) as (? & ? & ?).
        split_and!; [apply elem_of_app; by left|done|done].
      * done.
  - split_and!.
    + intros w [Hw| ->%list_elem_of_singleton]%elem_of_app Hw'; [|congruence].
      by apply Hmax.
    + intros Hacc. destruct (Hfound Hacc) as (? & ? & ?).
      split_and!; [apply elem_of_app; by left|done|done].
    + done.
Qed.

Lemma foldl_scanWord_scanned remaining dictionary seen acc :
  scanned remaining seen acc →
  scanned remaining (seen ++ dictionary)
    (foldl (scanWord remaining) acc dictionary).
Proof.
  revert seen acc.
  induction dictionary as [|word dictionary IH]; intros seen acc Hacc; simpl.
  - by rewrite app_nil_r.
  - replace (seen ++ word :: dictionary) with ((seen ++ [word]) ++ dictionary)
      by by rewrite <- app_assoc.
    apply IH. by apply scanWord_scanned.
Qed.

Lemma longestMatch_scanned dictionary remaining :
  scanned remaining dictionary (longestMatch dictionary remaining).
Proof.
  apply (foldl_scanWord_scanned remaining dictionary []).
  split_and!; simpl; [by intros w ?%elem_of_nil|done|done].
Qed.

(** The accumulator only prefixes the result of the loop. *)
Lemma segmentLoop_tokens dictionary remaining tokens :
  segmentLoop dictionary remaining tokens
  = tokens ++ segmentLoop dictionary remaining [].
Proof.
  remember (length remaining) as n eqn:Hn.
  revert remaining tokens Hn.
  induction (lt_wf n) as [n _ IH]; intros remaining tokens ->.
  destruct remaining as [|c rest]; simp segmentLoop.
  - by rewrite app_nil_r.
  - pose proof (iteration_decreases dictionary (c :: rest)) as Hlt.
    rewrite (IH _ (Hlt ltac:(done)) _ (push tokens _) eq_refl).
    rewrite (IH _ (Hlt ltac:(done)) _ (push [] _) eq_refl).
    unfold push. by rewrite <- app_assoc.
Qed.

Lemma segmentLoop_unfold dictionary remaining :
  remaining ≠ [] →
  segmentLoop dictionary remaining []
  = (iteration dictionary remaining).1
    :: segmentLoop dictionary (iteration dictionary remaining).2 [].
Proof.
  intros Hne. destruct remaining as [|c rest]; [done|].
  simp segmentLoop. by rewrite segmentLoop_tokens.
Qed.

(** The token an iteration emits is at least as long as every dictionary
    entry that prefixes the remaining text. *)
Lemma iteration_longest dictionary remaining word :
  remaining ≠ [] → word ∈ dictionary → startsWith remaining word = true →
  length word ≤ length (iteration dictionary remaining).1.
Proof.
  intros Hne Hin Hpre.
  destruct (longestMatch_scanned dictionary remaining) as (Hmax & Hfound & Hnone).
  specialize (Hmax word Hin Hpre). unfold iteration.
  destruct (longestMatch dictionary remaining) as [[] longestWord]; simpl in *.
  - done.
  - rewrite (Hnone eq_refl) in Hmax. simpl in Hmax. lia.
Qed.

Lemma iteration_entry dictionary remaining word :
  word ∈ dictionary → word ≠ [] → startsWith remaining word = true →
  (iteration dictionary remaining).1 ∈ dictionary
  ∧ startsWith remaining (iteration dictionary remaining).1 = true.
Proof.
  intros Hin Hne Hpre.
  destruct (longestMatch_scanned dictionary remaining) as (Hmax & Hfound & Hnone).
  specialize (Hmax word Hin Hpre). unfold iteration.
  destruct (longestMatch dictionary remaining) as [[] longestWord]; simpl in *.
  - by destruct (Hfound eq_refl) as (? & ? & ?).
  - rewrite (Hnone eq_refl) in Hmax. destruct word; [done|simpl in Hmax; lia].
Qed.

(** C2: with the dictionary {"a","ab","abc"}, in whatever order the entries
    were inserted, "abcd" is segmented into ["abc","d"]; and at every
    position of any text, with any dictionary, the token emitted is at
    least as long as every entry that prefixes the remaining text, and is
    itself such an entry as soon as a non-empty one exists. *)
Theorem longest_match_precedence :
  (∀ dictionary, dictionary ≡ₚ [str "a"; str "ab"; str "abc"] →
     dictionaryTokenize (str "abcd") (Some dictionary) = [str "abc"; str "d"])
  ∧ (∀ dictionary remaining, remaining ≠ [] →
       let token := (iteration dictionary remaining).1 in
       segmentLoop dictionary remaining []
       = token :: segmentLoop dictionary (iteration dictionary remaining).2 []
       ∧ (∀ word, word ∈ dictionary → startsWith remaining word = true →
                  length word ≤ length token)
       ∧ (∀ word, word ∈ dictionary → word ≠ [] →
                  startsWith remaining word = true →
                  token ∈ dictionary ∧ token `prefix_of` remaining)).
Proof.
  split.
  - intros dictionary Hperm. symmetry in Hperm.
    apply permutations_Permutation in Hperm. revert dictionary Hperm.
    apply Forall_forall. vm_compute. repeat constructor.
  - intros dictionary remaining Hne token. split_and!.
    + by apply segmentLoop_unfold.
    + intros word. by apply iteration_longest.
    + intros word Hin Hword Hpre.
      destruct (iteration_entry dictionary remaining word Hin Hword Hpre).
      split; [done|]. by apply startsWith_prefix.
Qed.

Lemma longest_match_precedence_witness :
  dictionaryTokenize (str "abcd") (Some [str "abc"; str "a"; str "ab"])
  = [str "abc"; str "d"]
  ∧ length (str "ab")
    ≤ length (iteration [str "a"; str "ab"; str "abc"] (str "abcd")).1.
Proof.
  split.
  - apply (proj1 longest_match_precedence).
    apply (bool_decide_unpack _). vm_compute. exact I.
  - apply (proj2 longest_match_precedence [str "a"; str "ab"; str "abc"]
             (str "abcd")).
    + vm_compute. discriminate.
    + apply (bool_decide_unpack _). vm_compute. exact I.
    + vm_compute. reflexivity.
Defined.

Lemma segmentLoop_iterations dictionary n remaining tokens :
  length remaining ≤ n →
  ∃ k, k ≤ length remaining
       ∧ (Nat.iter k (whileStep dictionary) (remaining, tokens)).1 = []
       ∧ segmentLoop dictionary remaining tokens
         = (Nat.iter k (whileStep dictionary) (remaining, tokens)).2.
Proof.
  revert remaining tokens.
  induction n as [|n IH]; intros remaining tokens Hlen.
  - destruct remaining; [|simpl in Hlen; lia].
    exists 0. simp segmentLoop. done.
  - destruct remaining as [|c rest].
    + exists 0. simp segmentLoop. done.
    + pose proof (iteration_decreases dictionary (c :: rest) ltac:(done)) as Hlt.
      destruct (IH (iteration dictionary (c :: rest)).2
                  (push tokens (iteration dictionary (c :: rest)).1))
        as (k & Hk & Hend & Hres); [simpl in *; lia|].
      exists (S k). rewrite Nat.iter_succ_r. split_and!.
      * simpl in *. lia.
      * exact Hend.
      * simp segmentLoop. exact Hres.
Qed.

(** C3: the segmentation loop terminates for every text and every
    dictionary, the empty string among its entries or not.  A match that is
    found has positive length, and without a match exactly one code unit is
    taken, so an iteration leaves strictly less text than it found; after
    at most as many iterations as the text has code units the remaining
    text is empty, and the loop returns the tokens pushed so far. *)
Theorem dictionaryTokenize_terminates (dictionary : list (list N))
    (text : list N) :
  (∀ remaining, (longestMatch dictionary remaining).1 = true →
     0 < length (longestMatch dictionary remaining).2)
  ∧ (∀ remaining, (longestMatch dictionary remaining).1 = false →
       iteration dictionary remaining
       = (take 1 remaining, skipSpaces (drop 1 remaining)))
  ∧ (∀ remaining, remaining ≠ [] →
       length (iteration dictionary remaining).2 < length remaining)
  ∧ ∃ k, k ≤ length text
         ∧ (Nat.iter k (whileStep dictionary) (text, [])).1 = []
         ∧ segmentLoop dictionary text []
           = (Nat.iter k (whileStep dictionary) (text, [])).2
         ∧ (text ≠ [] → dictionary ≠ [] →
            dictionaryTokenize text (Some dictionary)
            = (Nat.iter k (whileStep dictionary) (text, [])).2).
Proof.
  split_and!.
  - apply longestMatch_found.
  - intros remaining Hnone. unfold iteration.
    destruct (longestMatch dictionary remaining) as [found longestWord].
    simpl in Hnone. subst found. by destruct remaining as [|c [|c' rest]].
  - apply iteration_decreases.
  - destruct (segmentLoop_iterations dictionary (length text) text [])
      as (k & Hk & Hend & Hres); [done|].
    exists k. split_and!; [done|done|done|].
    intros Htext Hdict. unfold dictionaryTokenize.
    rewrite bool_decide_eq_false_2 by done.
    by destruct dictionary.
Qed.

Lemma dictionaryTokenize_terminates_witness :
  length (iteration [[]; str "a"] (str "ab")).2 < length (str "ab")
  ∧ dictionaryTokenize (str "ab c") (Some [[]]) = [str "a"; str "b"; str "c"].
Proof.
  split.
  - apply (dictionaryTokenize_terminates [[]; str "a"] (str "ab")).
    vm_compute. discriminate.
  - vm_compute. reflexivity.
Defined.

(** ** The heuristic segmenter *)

Lemma trim_unit c : trim [c] = [] ↔ isWhiteSpace c = true.
Proof.
  unfold trim. simpl. destruct (isWhiteSpace c) eqn:Hc.
  - done.
  - change (reverse [c]) with [c]. simpl. rewrite Hc.
    change (reverse [c]) with [c]. split; discriminate.
Qed.

Lemma thaiPattern_not_space c : thaiPattern c = true → isWhiteSpace c = false.
Proof.
  unfold thaiPattern, isWhiteSpace. intros [H1 H2]%andb_true_iff.
  apply N.leb_le in H1. apply N.leb_le in H2.
  repeat (apply orb_false_iff; split);
    try (apply N.eqb_neq; lia);
    apply andb_false_iff;
    first [ left; apply N.leb_gt; lia | right; apply N.leb_gt; lia ].
Qed.

(** The tokens pushed so far and the pending token, taken together, hold
    the visible code units read so far. *)
Lemma simpleLoop_concat text tokens currentToken :
  Forall (λ c, thaiPattern c = true) currentToken →
  concat (simpleLoop text tokens currentToken)
  = concat tokens ++ currentToken ++ List.filter visible text.
Proof.
  assert (Hflush : ∀ tokens currentToken : _,
    concat (if bool_decide (currentToken = []) then tokens
            else push tokens currentToken)
    = concat tokens ++ currentToken).
  { intros tks cur. unfold push. case_bool_decide as Hc.
    - subst. by rewrite app_nil_r.
    - rewrite concat_app. cbn [concat]. by rewrite app_nil_r. }
  revert tokens currentToken.
  induction text as [|char rest IH]; intros tokens currentToken Hcur;
    cbn [simpleLoop List.filter].
  - by rewrite Hflush, app_nil_r.
  - destruct ((char =? 32)%N || negb (thaiPattern char)) eqn:Hboundary.
    + destruct (isWhiteSpace char) eqn:Hws.
      * rewrite (bool_decide_eq_true_2 (trim [char] = []))
          by by apply trim_unit.
        replace (visible char) with false by (unfold visible; by rewrite Hws).
        rewrite IH by constructor. by rewrite Hflush, <- app_assoc.
      * rewrite (bool_decide_eq_false_2 (trim [char] = []))
          by (rewrite trim_unit; congruence).
        replace (visible char) with true by (unfold visible; by rewrite Hws).
        rewrite IH by constructor. unfold push at 1.
        rewrite concat_app, Hflush. cbn [app concat].
        by rewrite <- !app_assoc.
    + apply orb_false_iff in Hboundary as [_ Hthai].
      apply negb_false_iff in Hthai.
      replace (visible char) with true
        by (unfold visible; by rewrite (thaiPattern_not_space _ Hthai)).
      destruct (negb (thaiVowelPattern char) && negb (thaiToneMarkPattern char)
                && test thaiVowelPattern (head rest)).
      * rewrite IH by constructor. unfold push. rewrite concat_app.
        cbn [concat app]. by rewrite app_nil_r, <- !app_assoc.
      * rewrite IH.
        -- by rewrite <- !app_assoc.
        -- apply Forall_app. split; [done|by constructor].
Qed.

Lemma simpleLoop_visible text tokens currentToken :
  Forall (λ c, thaiPattern c = true) currentToken →
  Forall (Forall (λ c, isWhiteSpace c = false)) tokens →
  Forall (Forall (λ c, isWhiteSpace c = false))
    (simpleLoop text tokens currentToken).
Proof.
  assert (Hpush : ∀ tokens currentToken,
    Forall (λ c, thaiPattern c = true) currentToken →
    Forall (Forall (λ c, isWhiteSpace c = false)) tokens →
    Forall (Forall (λ c, isWhiteSpace c = false)) (push tokens currentToken)).
  { intros tks cur Hcur Htks. apply Forall_app. split; [done|].
    constructor; [|constructor].
    eapply Forall_impl; [exact Hcur|]. apply thaiPattern_not_space. }
  revert tokens currentToken.
  induction text as [|char rest IH]; intros tokens currentToken Hcur Htok;
    cbn [simpleLoop].
  - case_bool_decide; [done|by apply Hpush].
  - destruct ((char =? 32)%N || negb (thaiPattern char)) eqn:Hboundary.
    + apply IH; [constructor|].
      assert (Hflush : Forall (Forall (λ c, isWhiteSpace c = false))
                (if bool_decide (currentToken = []) then tokens
                 else push tokens currentToken)).
      { case_bool_decide; [done|by apply Hpush]. }
      destruct (bool_decide (trim [char] = [])) eqn:Htrim; [exact Hflush|].
      apply bool_decide_eq_false in Htrim.
      rewrite trim_unit in Htrim. apply not_true_is_false in Htrim.
      apply Forall_app. split; [exact Hflush|]. by repeat constructor.
    + apply orb_false_iff in Hboundary as [_ Hthai].
      apply negb_false_iff in Hthai.
      assert (Hcur' : Forall (λ c, thaiPattern c = true) (currentToken ++ [char])).
      { apply Forall_app. split; [done|by constructor]. }
      destruct (negb (thaiVowelPattern char) && negb (thaiToneMarkPattern char)
                && test thaiVowelPattern (head rest)).
      * apply IH; [constructor|by apply Hpush].
      * by apply IH.
Qed.

(** C10: the tokens of the heuristic segmenter, concatenated in order, are
    the text without its white space (the code units [trim] strips), and no
    token holds a white-space code unit. *)
Theorem simpleTokenize_concat (text : list N) :
  concat (simpleTokenize text) = List.filter (λ c, negb (isWhiteSpace c)) text
  ∧ Forall (Forall (λ c, isWhiteSpace c = false)) (simpleTokenize text).
Proof.
  split.
  - unfold simpleTokenize. by rewrite simpleLoop_concat by constructor.
  - apply simpleLoop_visible; constructor.
Qed.

(** ** The pipeline *)

Section Pipeline.
Context {E : Engine}.

Lemma tokenize_string (t : Tokenizer) (s : list N) :
  s ≠ [] →
  tokenize t (VString s)
  = stemmingStage t (stopwordStage t (lowercaseStage t (segment t s))).
Proof.
  intros Hs. unfold tokenize. simpl.
  by rewrite bool_decide_eq_false_2.
Qed.

Lemma tokenize_invalid (t : Tokenizer) (text : value) :
  text = VString [] ∨ isString text = false → tokenize t text = [].
Proof.
  intros [->|Hs]; [done|]. unfold tokenize. rewrite Hs.
  by rewrite orb_true_r.
Qed.

Lemma tokenize_nonempty (t : Tokenizer) (text : value) :
  tokenize t text ≠ [] → negb (truthy text) || negb (isString text) = false.
Proof.
  unfold tokenize. by destruct (negb (truthy text) || negb (isString text)).
Qed.

Lemma filter_bool_decide {A} (P : A → Prop) `{!∀ x, Decision (P x)}
    (l : list A) :
  List.filter (λ x, negb (bool_decide (P x))) l = filter (λ x, ¬ P x) l.
Proof.
  induction l as [|x l IH]; [done|].
  cbn [List.filter]. rewrite filter_cons, IH.
  destruct (decide (P x)) as [HP|HP].
  - rewrite bool_decide_eq_true_2 by done. by rewrite decide_False by tauto.
  - rewrite bool_decide_eq_false_2 by done. by rewrite decide_True.
Qed.

End Pipeline.

(** C5: when stopword removal is enabled, the stage keeps, in their order,
    exactly the tokens whose lowercase form is not in the stopword set: its
    result is that filter of its input, hence a subsequence of it; and with
    lowercase folding switched off the tokens reach the comparison in their
    raw case and are still lowered for it. *)
Theorem stopword_removal_filter (E : Engine) (t : Tokenizer)
    (tokens : list (list N)) :
  removeStopwords (options t) = true →
  stopwordStage t tokens
  = filter (λ token, toLowerCase token ∉ stopwords t) tokens
  ∧ stopwordStage t tokens `sublist_of` tokens
  ∧ (∀ token, token ∈ stopwordStage t tokens
              ↔ token ∈ tokens ∧ toLowerCase token ∉ stopwords t)
  ∧ (∀ s, s ≠ [] → lowercase (options t) = false →
          stemming (options t) = false →
          tokenize t (VString s)
          = filter (λ token, toLowerCase token ∉ stopwords t) (segment t s)).
Proof.
  intros Hon.
  assert (Hstage : ∀ tks, stopwordStage t tks
            = filter (λ token, toLowerCase token ∉ stopwords t) tks).
  { intros tks. unfold stopwordStage. rewrite Hon.
    apply (filter_bool_decide (λ token, toLowerCase token ∈ stopwords t)). }
  split_and!.
  - apply Hstage.
  - rewrite Hstage. apply sublist_filter.
  - intros token. rewrite Hstage, list_elem_of_filter. tauto.
  - intros s Hs Hlow Hstem. rewrite tokenize_string by done.
    unfold stemmingStage, lowercaseStage. rewrite Hstem, Hlow. simpl.
    apply Hstage.
Qed.

Lemma stopword_removal_filter_witness :
  stopwordStage (E := latin_engine) raw_case [str "The"; str "Cat"; str "the"]
  = filter (λ token, toLowerCase (Engine := latin_engine) token ∉ stopwords raw_case)
      [str "The"; str "Cat"; str "the"]
  ∧ tokenize (E := latin_engine) raw_case (VString (str "The Cat"))
    = filter (λ token, toLowerCase (Engine := latin_engine) token ∉ stopwords raw_case)
        (segment (E := latin_engine) raw_case (str "The Cat")).
Proof.
  split.
  - apply (stopword_removal_filter latin_engine raw_case). reflexivity.
  - apply (stopword_removal_filter latin_engine raw_case []); try reflexivity.
    vm_compute. discriminate.
Defined.

Lemma th_not_stemmable : str "th" ∉ stemmable.
Proof. by_evaluation. Qed.

(** The modular version: with stemming enabled, the result is the stemmed
    image of the result without stemming exactly when the language is one
    of en, es, fr, it, pt, de, nl; for every other language, th among them,
    enabling stemming changes nothing. *)
Theorem stemming_whitelist (E : Engine) (t : Tokenizer) (text : value) :
  (∀ code, code ∈ stemmable
           ↔ code = str "en" ∨ code = str "es" ∨ code = str "fr"
             ∨ code = str "it" ∨ code = str "pt" ∨ code = str "de"
             ∨ code = str "nl")
  ∧ (language (options t) ∈ stemmable →
     tokenize (with_stemming true t) text
     = stemToken <$> tokenize (with_stemming false t) text)
  ∧ (language (options t) ∉ stemmable →
     tokenize (with_stemming true t) text
     = tokenize (with_stemming false t) text)
  ∧ (language (options t) = str "th" →
     tokenize (with_stemming true t) text
     = tokenize (with_stemming false t) text).
Proof.
  assert (Hout : language (options t) ∉ stemmable →
            tokenize (with_stemming true t) text
            = tokenize (with_stemming false t) text).
  { intros Hlang. unfold tokenize.
    destruct (negb (truthy text) || negb (isString text)); [done|].
    destruct text; try done.
    unfold stemmingStage, includes. simpl.
    by rewrite bool_decide_eq_false_2. }
  split_and!.
  - intros code. unfold stemmable. rewrite !elem_of_cons, elem_of_nil. tauto.
  - intros Hlang. unfold tokenize.
    destruct (negb (truthy text) || negb (isString text)); [done|].
    destruct text; try done.
    unfold stemmingStage, includes. simpl.
    by rewrite bool_decide_eq_true_2.
  - exact Hout.
  - intros Hth. apply Hout. rewrite Hth. apply th_not_stemmable.
Qed.

Lemma stemming_whitelist_witness :
  tokenize (E := latin_engine) (with_stemming true english)
    (VString (str "running dogs"))
  = stemToken (E := latin_engine)
      <$> tokenize (E := latin_engine) (with_stemming false english)
            (VString (str "running dogs"))
  ∧ tokenize (E := latin_engine) (with_stemming true (thai None))
      (VString (str "running dogs"))
    = tokenize (E := latin_engine) (with_stemming false (thai None))
        (VString (str "running dogs")).
Proof.
  split.
  - apply (stemming_whitelist latin_engine english). by_evaluation.
  - apply (stemming_whitelist latin_engine (thai None)). reflexivity.
Defined.

(** The earlier version does the same for the languages of the list and
    for th, and stems the tokens of every other language. *)
Lemma legacy_stemmingStage (E : Engine) (t : Tokenizer)
    (tokens : list (list N)) :
  (language (options t) ∈ stemmable ∨ language (options t) = str "th" →
   Legacy.stemmingStage t tokens = stemmingStage t tokens)
  ∧ (language (options t) ∉ stemmable → language (options t) ≠ str "th" →
     stemming (options t) = true →
     Legacy.stemmingStage t tokens = stemToken <$> tokens
     ∧ stemmingStage t tokens = tokens).
Proof.
  unfold Legacy.stemmingStage, stemmingStage, includes. split.
  - intros [Hin|Hth].
    + rewrite (bool_decide_eq_true_2 _ Hin).
      rewrite bool_decide_eq_false_2; [done|].
      intros Hth. rewrite Hth in Hin. by apply th_not_stemmable.
    + rewrite Hth, (bool_decide_eq_false_2 _ th_not_stemmable).
      by rewrite bool_decide_eq_true_2.
  - intros Hout Hth Hon. rewrite Hon.
    by rewrite (bool_decide_eq_false_2 _ Hout), (bool_decide_eq_false_2 _ Hth).
Qed.

(** ** N-grams *)

Lemma slice_window (tokens : list (list N)) (n i : Z) :
  (0 ≤ i)%Z → (1 ≤ n)%Z → (i ≤ Z.of_nat (length tokens) - n)%Z →
  slice tokens i (i + n) = window tokens (Z.to_nat n) (Z.to_nat i).
Proof.
  intros Hi Hn Hle. unfold slice, window, clamp.
  destruct (Z.ltb_spec i 0); [lia|].
  destruct (Z.ltb_spec (i + n) 0); [lia|].
  f_equal; [lia|f_equal; lia].
Qed.

Lemma ngramLoop_windows (tokens : list (list N)) (n : Z) (k : nat) :
  (1 ≤ n)%Z →
  ∀ (i : Z) (ngrams : list (list N)),
    (0 ≤ i)%Z →
    k = Z.to_nat (Z.of_nat (length tokens) - n - i + 1) →
    ngramLoop tokens n i ngrams
    = ngrams ++ ((λ j, join (str " ") (window tokens (Z.to_nat n) j))
                   <$> seq (Z.to_nat i) k).
Proof.
  intros Hn. induction k as [|k IH]; intros i ngrams Hi Hk;
    rewrite ngramLoop_equation_1;
    destruct (decide (i ≤ Z.of_nat (length tokens) - n)%Z) as [Hle|Hgt];
    simpl; try lia.
  - by rewrite app_nil_r.
  - rewrite (IH (i + 1)%Z) by lia.
    rewrite slice_window by lia. unfold push.
    replace (Z.to_nat (i + 1)) with (S (Z.to_nat i)) by lia.
    by rewrite <- app_assoc.
Qed.

(** C8: when the tokenization of the input has [L] tokens and
    [1 ≤ n ≤ L], the n-grams are the [L − n + 1] windows of [n] consecutive
    tokens, each joined by single spaces, from left to right; when [n > L]
    there is none. *)
Theorem ngram_windows (E : Engine) (t : Tokenizer) (text : value) (n : Z) :
  let tokens := tokenize t text in
  ((1 ≤ n ≤ Z.of_nat (length tokens))%Z →
     ngramTokenize t text n
     = (λ i, join (str " ") (window tokens (Z.to_nat n) i))
         <$> seq 0 (length tokens - Z.to_nat n + 1)
     ∧ length (ngramTokenize t text n) = length tokens - Z.to_nat n + 1
     ∧ ∀ i, i < length tokens - Z.to_nat n + 1 →
            length (window tokens (Z.to_nat n) i) = Z.to_nat n)
  ∧ ((Z.of_nat (length tokens) < n)%Z → ngramTokenize t text n = []).
Proof.
  intros tokens. split.
  - intros [Hn HL].
    assert (Hgrams : ngramTokenize t text n
              = (λ i, join (str " ") (window tokens (Z.to_nat n) i))
                  <$> seq 0 (length tokens - Z.to_nat n + 1)).
    { unfold ngramTokenize. rewrite (tokenize_nonempty t).
      - destruct (Z.ltb_spec n 1); [lia|]. simpl.
        by rewrite (ngramLoop_windows _ n (length tokens - Z.to_nat n + 1))
          by (fold tokens; lia).
      - fold tokens. destruct tokens; [simpl in HL; lia|done]. }
    split_and!.
    + exact Hgrams.
    + by rewrite Hgrams, length_fmap, length_seq.
    + intros i Hi. unfold window. rewrite length_take, length_drop. lia.
  - intros HL. unfold ngramTokenize.
    destruct (negb (truthy text) || negb (isString text)); [done|].
    destruct (Z.ltb_spec n 1); [done|]. simpl.
    rewrite ngramLoop_equation_1.
    destruct (decide (0 ≤ Z.of_nat (length (tokenize t text)) - n)%Z);
      [unfold tokens in HL; lia|done].
Qed.

Lemma ngram_windows_witness :
  ngramTokenize (E := latin_engine) english (VString (str "a b c d")) 3
  = [str "a b c"; str "b c d"]
  ∧ ngramTokenize (E := latin_engine) english (VString (str "a b c d")) 5 = [].
Proof.
  split.
  - apply (proj1 (ngram_windows latin_engine english
                    (VString (str "a b c d")) 3)).
    vm_compute. split; discriminate.
  - apply (proj2 (ngram_windows latin_engine english
                    (VString (str "a b c d")) 5)).
    vm_compute. reflexivity.
Defined.

(** ** Invalid input *)

(** C9: an empty string, [null], [undefined] or any value that is not a
    string yields the empty token list, the empty n-gram list and the empty
    frequency object, whatever the configuration and the size [n]. *)
Theorem invalid_input_empty (E : Engine) (t : Tokenizer) (text : value)
    (n : Z) :
  text = VString [] ∨ isString text = false →
  tokenize t text = []
  ∧ ngramTokenize t text n = []
  ∧ getTokenFrequency t text = ∅.
Proof.
  intros Hbad. split_and!.
  - by apply tokenize_invalid.
  - unfold ngramTokenize. destruct Hbad as [->|Hs]; [done|].
    rewrite Hs. by rewrite orb_true_r.
  - unfold getTokenFrequency. by rewrite tokenize_invalid.
Qed.

Lemma invalid_input_empty_witness :
  tokenize (E := latin_engine) english VNull = []
  ∧ ngramTokenize (E := latin_engine) english VNull 2 = []
  ∧ getTokenFrequency (E := latin_engine) english VNull = ∅.
Proof.
  apply (invalid_input_empty latin_engine english VNull 2).
  right. reflexivity.
Defined.

(** ** The choice of the segmentation method *)

(** C1, as the code has it: for the language th, a tokenizer without a
    dictionary ([null]) segments with the universal word pattern, one with
    an empty dictionary with the heuristic segmenter, and one with a
    non-empty dictionary with the longest-match loop; the stopword stage is
    the only one that can still act on the tokens. *)
Theorem thai_segmentation_modes (E : Engine) (t : Tokenizer) (text : list N) :
  language (options t) = str "th" → text ≠ [] →
  tokenize t (VString text)
  = stopwordStage t
      match thaiDictionary (options t) with
      | None => matchAll text
      | Some [] => simpleTokenize text
      | Some (word :: words) => segmentLoop (word :: words) text []
      end.
Proof.
  intros Hth Htext. rewrite tokenize_string by done.
  unfold stemmingStage, lowercaseStage, includes. rewrite Hth.
  rewrite (bool_decide_eq_false_2 _ th_not_stemmable).
  rewrite (bool_decide_eq_true_2 (str "th" = str "th")) by done.
  cbn [negb]. rewrite !andb_false_r. f_equal.
  unfold segment. rewrite Hth.
  rewrite (bool_decide_eq_true_2 (str "th" = str "th")) by done.
  destruct (thaiDictionary (options t)) as [[|word words]|]; simpl.
  - unfold dictionaryTokenize. by rewrite bool_decide_eq_false_2.
  - unfold dictionaryTokenize. by rewrite bool_decide_eq_false_2.
  - done.
Qed.

Lemma thai_segmentation_modes_witness :
  tokenize (E := latin_engine) (thai None) (VString (str "ab"))
  = stopwordStage (E := latin_engine) (thai None)
      (matchAll (E := latin_engine) (str "ab"))
  ∧ tokenize (E := latin_engine) (thai (Some [])) (VString (str "ab"))
    = stopwordStage (E := latin_engine) (thai (Some []))
        (simpleTokenize (str "ab")).
Proof.
  split.
  - apply (thai_segmentation_modes latin_engine (thai None) (str "ab"));
      [reflexivity|vm_compute; discriminate].
  - apply (thai_segmentation_modes latin_engine (thai (Some [])) (str "ab"));
      [reflexivity|vm_compute; discriminate].
Defined.

(** Without a dictionary the text "ab" comes out as the single word the
    pattern finds, where the heuristic segmenter would give one token per
    letter. *)
Lemma thai_without_dictionary :
  tokenize (E := latin_engine) (thai None) (VString (str "ab")) = [str "ab"]
  ∧ simpleTokenize (str "ab") = [str "a"; str "b"]
  ∧ tokenize (E := latin_engine) (thai None) (VString (str "ab"))
    ≠ simpleTokenize (str "ab").
Proof. split_and!; vm_compute; [reflexivity|reflexivity|discriminate]. Qed.

(** ** Token frequencies *)

Lemma occurrences_snoc key tokens token :
  occurrences key (tokens ++ [token])
  = occurrences key tokens + (if decide (token = key) then 1 else 0).
Proof.
  unfold occurrences. rewrite filter_app, length_app. f_equal.
  rewrite filter_cons, filter_nil. by destruct (decide (token = key)).
Qed.

(** As long as no token names a property of [Object.prototype], the
    frequency object holds exactly the counts. *)
Lemma foldl_countToken (tokens : list (list N)) (key : list N) :
  Forall (λ token, objectPrototype token = None) tokens →
  foldl countToken ∅ tokens !! key
  = if occurrences key tokens =? 0 then None
    else Some (VNumber (Z.of_nat (occurrences key tokens))).
Proof.
  revert key.
  induction tokens as [|token tokens IH] using rev_ind; intros key Hown.
  - apply lookup_empty.
  - apply Forall_app in Hown as [Hown Htoken].
    rewrite Forall_singleton in Htoken.
    rewrite foldl_snoc, occurrences_snoc.
    pose proof (IH key Hown) as IHkey.
    set (frequency := foldl countToken ∅ tokens) in *.
    unfold countToken, setProperty.
    assert (Hproto : token ≠ str "__proto__").
    { intros ->. vm_compute in Htoken. discriminate. }
    rewrite (bool_decide_eq_false_2 _ Hproto).
    destruct (decide (token = key)) as [->|Hne].
    + rewrite lookup_insert_eq. unfold getProperty.
      rewrite IHkey, Htoken.
      destruct (Nat.eqb_spec (occurrences key tokens) 0) as [H0|H0].
      * rewrite H0. done.
      * destruct (Nat.eqb_spec (occurrences key tokens + 1) 0); [lia|].
        unfold or_else. simpl.
        destruct (Z.eqb_spec (Z.of_nat (occurrences key tokens)) 0); [lia|].
        simpl. do 2 f_equal. lia.
    + rewrite lookup_insert_ne by done. rewrite IHkey.
      by rewrite Nat.add_0_r.
Qed.

Lemma getTokenFrequency_counts (E : Engine) (t : Tokenizer) (text : value)
    (key : list N) :
  Forall (λ token, objectPrototype token = None) (tokenize t text) →
  getTokenFrequency t text !! key
  = if occurrences key (tokenize t text) =? 0 then None
    else Some (VNumber (Z.of_nat (occurrences key (tokenize t text)))).
Proof. apply foldl_countToken. Qed.

(** On Basic Latin text the universal pattern sees the same words under
    every faithful engine. *)
Lemma codePoints_latin (text : list N) :
  isBasicLatin text → codePoints text = text.
Proof.
  unfold isBasicLatin. induction 1 as [|c text Hc Htext IH]; [done|].
  cbn [codePoints]. destruct text as [|lo rest]; [done|].
  replace (isHighSurrogate c) with false; [by rewrite IH|].
  unfold isHighSurrogate. symmetry. apply andb_false_iff. left.
  apply N.leb_gt. lia.
Qed.

Lemma matchRun_latin (E : Engine) (HE : BasicLatin E) (cps : list N) :
  isBasicLatin cps →
  ∀ st, matchRun (E := E) st cps = matchRun (E := latin_engine) st cps.
Proof.
  unfold isBasicLatin. induction 1 as [|c cps Hc Hcps IH]; intros st; [done|].
  cbn [matchRun]. unfold advance.
  rewrite (@general_category_latin E HE c Hc).
  rewrite (@general_category_latin latin_engine latin_engine_faithful c Hc).
  destruct (latin_category c), st; by rewrite IH.
Qed.

Lemma matchAll_latin (E : Engine) (HE : BasicLatin E) (text : list N) :
  isBasicLatin text →
  matchAll (E := E) text = matchAll (E := latin_engine) text.
Proof.
  intros Htext. unfold matchAll. rewrite codePoints_latin by done.
  by rewrite (matchRun_latin E HE).
Qed.

(** C4 at the text "constructor", with the default options: the only token
    is "constructor", a property the object literal inherits, and the
    entry written for it is the text of the [Object] function followed by
    "1", not the count 1. *)
Theorem frequency_of_constructor (E : Engine) (HE : BasicLatin E)
    (words : gset (list N)) :
  let t := {| options := defaults; stopwords := words |} in
  tokenize t (VString (str "constructor")) = [str "constructor"]
  ∧ getTokenFrequency t (VString (str "constructor"))
    = {[ str "constructor"
         := VString (str "function Object() { [native code] }1") ]}.
Proof.
  intros t.
  assert (Htokens :
    tokenize t (VString (str "constructor")) = [str "constructor"]).
  { rewrite tokenize_string by (vm_compute; discriminate).
    unfold stemmingStage, stopwordStage, lowercaseStage, segment.
    cbn [t options stemming removeStopwords lowercase language defaults
         thaiDictionary andb].
    rewrite (bool_decide_eq_false_2 (str "en" = str "th"))
      by (vm_compute; discriminate).
    cbn [andb negb]. rewrite matchAll_latin by (done || by_evaluation).
    replace (matchAll (E := latin_engine) (str "constructor"))
      with [str "constructor"] by (vm_compute; reflexivity).
    cbn [fmap list_fmap]. rewrite toLowerCase_latin by by_evaluation.
    vm_compute. reflexivity. }
  split; [exact Htokens|].
  unfold getTokenFrequency. rewrite Htokens. vm_compute. reflexivity.
Qed.

Lemma frequency_of_constructor_witness :
  getTokenFrequency (E := latin_engine) english (VString (str "constructor"))
  = {[ str "constructor"
       := VString (str "function Object() { [native code] }1") ]}.
Proof.
  apply (frequency_of_constructor latin_engine latin_engine_faithful ∅).
Defined.

(** * Further properties of the code *)

(** ** The dictionary segmenter, continued *)

(** Induction along the iterations of the outer loop. *)
Lemma segmentLoop_induction (dictionary : list (list N))
    (P : list N → list (list N) → Prop) :
  P [] [] →
  (∀ remaining, remaining ≠ [] →
     P (iteration dictionary remaining).2
       (segmentLoop dictionary (iteration dictionary remaining).2 []) →
     P remaining
       ((iteration dictionary remaining).1
        :: segmentLoop dictionary (iteration dictionary remaining).2 [])) →
  ∀ remaining, P remaining (segmentLoop dictionary remaining []).
Proof.
  intros Hnil Hstep remaining.
  remember (length remaining) as n eqn:Hn. revert remaining Hn.
  induction (lt_wf n) as [n _ IH]; intros remaining ->.
  destruct remaining as [|c rest].
  - by simp segmentLoop.
  - rewrite segmentLoop_unfold by done. apply Hstep; [done|].
    eapply IH; [|reflexivity]. by apply iteration_decreases.
Qed.

Lemma skipSpaces_split (gap : list N) :
  ∃ spaces, gap = spaces ++ skipSpaces gap ∧ Forall (λ c, c = 32%N) spaces.
Proof.
  induction gap as [|c gap (spaces & Hgap & Hspaces)]; simpl.
  - by exists [].
  - destruct (N.eqb_spec c 32) as [->|Hc].
    + exists (32%N :: spaces). split; [by rewrite <- app_comm_cons, <- Hgap|].
      by constructor.
    + by exists [].
Qed.

Lemma skipSpaces_head (gap : list N) : head (skipSpaces gap) ≠ Some 32%N.
Proof.
  induction gap as [|c gap IH]; simpl; [done|].
  destruct (N.eqb_spec c 32) as [->|Hc]; [done|].
  simpl. congruence.
Qed.

Lemma slice_from_drop {A} (l : list A) (k : nat) :
  slice_from l (Z.of_nat k) = drop k l.
Proof.
  unfold slice_from, clamp. destruct (Z.ltb_spec (Z.of_nat k) 0); [lia|].
  rewrite Nat2Z.id. destruct (Nat.le_gt_cases k (length l)).
  - by rewrite Nat.min_l.
  - rewrite Nat.min_r by lia. by rewrite !drop_ge by lia.
Qed.

(** What one iteration takes: a non-empty token at the front of the text,
    then spaces. *)
Lemma iteration_split (dictionary : list (list N)) (remaining : list N) :
  remaining ≠ [] →
  ∃ spaces,
    remaining = (iteration dictionary remaining).1 ++ spaces
                ++ (iteration dictionary remaining).2
    ∧ Forall (λ c, c = 32%N) spaces
    ∧ (iteration dictionary remaining).1 ≠ []
    ∧ ((iteration dictionary remaining).1 ∈ dictionary
       ∨ length (iteration dictionary remaining).1 = 1)
    ∧ head (iteration dictionary remaining).2 ≠ Some 32%N.
Proof.
  intros Hne. unfold iteration.
  destruct (longestMatch_scanned dictionary remaining) as (_ & Hfound & _).
  destruct (longestMatch dictionary remaining) as [[] longestWord]; simpl in *.
  - destruct (Hfound eq_refl) as (Hin & Hpre & Hpos).
    apply startsWith_prefix in Hpre as [gap ->].
    rewrite slice_from_drop, drop_app_length.
    destruct (skipSpaces_split gap) as (spaces & Hgap & Hspaces).
    exists spaces. split_and!; [by rewrite <- Hgap|done| |by left|].
    + intros ->. simpl in Hpos. lia.
    + apply skipSpaces_head.
  - destruct remaining as [|c rest]; [done|].
    change (slice_from (c :: rest) 1) with (slice_from (c :: rest) (Z.of_nat 1)).
    rewrite slice_from_drop. simpl. rewrite drop_0.
    destruct (skipSpaces_split rest) as (spaces & Hgap & Hspaces).
    exists spaces. split_and!; [by rewrite <- Hgap|done|done|by right|].
    apply skipSpaces_head.
Qed.

(** Any two accumulators that describe complete scans of dictionaries with
    the same entries coincide: among the entries that prefix the text, the
    longest is unique. *)
Lemma scanned_unique remaining d d' acc acc' :
  (∀ word, word ∈ d ↔ word ∈ d') →
  scanned remaining d acc → scanned remaining d' acc' → acc = acc'.
Proof.
  assert (Hle : ∀ d d' acc acc',
    (∀ word, word ∈ d ↔ word ∈ d') →
    scanned remaining d acc → scanned remaining d' acc' →
    acc.1 = true → acc'.1 = true ∧ length acc.2 ≤ length acc'.2).
  { intros e e' a a' Hsame (_ & Hfound & _) (Hmax' & _ & Hnone') Ha.
    destruct (Hfound Ha) as (Hin & Hpre & Hpos).
    pose proof (Hmax' _ (proj1 (Hsame _) Hin) Hpre) as Hlen.
    split; [|done]. destruct (a'.1) eqn:Ha'; [done|].
    rewrite (Hnone' eq_refl) in Hlen. simpl in Hlen. lia. }
  intros Hsame Hacc Hacc'.
  assert (Hsame' : ∀ word, word ∈ d' ↔ word ∈ d) by (intros; by rewrite Hsame).
  destruct acc as [found w], acc' as [found' w'].
  destruct found.
  - destruct (Hle _ _ _ _ Hsame Hacc Hacc' eq_refl) as [Hf' Hlen].
    simpl in Hf'. subst found'.
    destruct (Hle _ _ _ _ Hsame' Hacc' Hacc eq_refl) as [_ Hlen'].
    simpl in *. f_equal.
    destruct Hacc as (_ & Hfound & _), Hacc' as (_ & Hfound' & _).
    destruct (Hfound eq_refl) as (_ & [k Hk]%startsWith_prefix & _).
    destruct (Hfound' eq_refl) as (_ & [k' Hk']%startsWith_prefix & _).
    simpl in *. rewrite Hk in Hk'.
    apply app_inj_1 in Hk' as [? _]; [done|lia].
  - destruct found'.
    + destruct (Hle _ _ _ _ Hsame' Hacc' Hacc eq_refl) as [? _]. done.
    + destruct Hacc as (_ & _ & Hnone), Hacc' as (_ & _ & Hnone').
      simpl in *. by rewrite Hnone, Hnone'.
Qed.

Lemma segmentLoop_same_entries d d' :
  (∀ word, word ∈ d ↔ word ∈ d') →
  ∀ remaining, segmentLoop d remaining [] = segmentLoop d' remaining [].
Proof.
  intros Hsame.
  assert (Hiter : ∀ remaining, iteration d remaining = iteration d' remaining).
  { intros remaining. unfold iteration.
    by rewrite (scanned_unique remaining d d' _ _ Hsame
                  (longestMatch_scanned d remaining)
                  (longestMatch_scanned d' remaining)). }
  apply (segmentLoop_induction d
           (λ remaining tokens, tokens = segmentLoop d' remaining [])).
  - by simp segmentLoop.
  - intros remaining Hne IH. rewrite (segmentLoop_unfold d') by done.
    by rewrite <- Hiter, IH.
Qed.

(** X1: the segmentation depends on the set of dictionary entries only,
    not on the order in which they were inserted (nor on repetitions). *)
Theorem dictionaryTokenize_same_entries (text : list N)
    (d d' : list (list N)) :
  (∀ word, word ∈ d ↔ word ∈ d') →
  dictionaryTokenize text (Some d) = dictionaryTokenize text (Some d').
Proof.
  intros Hsame. unfold dictionaryTokenize.
  case_bool_decide; [done|].
  assert (Hempty : (length d =? 0) = (length d' =? 0)).
  { destruct d as [|w d], d' as [|w' d']; try done.
    - exfalso. eapply elem_of_nil. apply Hsame. by left.
    - exfalso. eapply elem_of_nil. apply Hsame. by left. }
  rewrite <- Hempty. destruct (length d =? 0); [done|].
  by apply segmentLoop_same_entries.
Qed.

Lemma dictionaryTokenize_same_entries_witness :
  dictionaryTokenize (str "abcab") (Some [str "ab"; str "abc"])
  = dictionaryTokenize (str "abcab") (Some [str "abc"; str "ab"; str "abc"]).
Proof.
  apply dictionaryTokenize_same_entries.
  intros word. rewrite !elem_of_cons, !elem_of_nil. tauto.
Defined.

(** X2: with a non-empty dictionary every token is non-empty, and is a
    dictionary entry or a single code unit; no token after the first
    begins with a space; and there are at most as many tokens as the text
    has code units. *)
Theorem dictionaryTokenize_tokens (text : list N) (dictionary : list (list N)) :
  dictionary ≠ [] →
  let tokens := dictionaryTokenize text (Some dictionary) in
  Forall (λ token, token ≠ [] ∧ (token ∈ dictionary ∨ length token = 1)) tokens
  ∧ Forall (λ token, head token ≠ Some 32%N) (tail tokens)
  ∧ length tokens ≤ length text.
Proof.
  intros Hd tokens. subst tokens. unfold dictionaryTokenize.
  case_bool_decide as Htext; [subst; simpl; split_and!; by try constructor|].
  destruct dictionary as [|w ws]; [done|]. simpl (length _ =? 0).
  cbv iota.
  set (d := w :: ws) in *.
  assert (Hall : ∀ remaining,
    Forall (λ token, token ≠ [] ∧ (token ∈ d ∨ length token = 1))
      (segmentLoop d remaining [])
    ∧ (head remaining ≠ Some 32%N →
       Forall (λ token, head token ≠ Some 32%N) (segmentLoop d remaining []))
    ∧ length (segmentLoop d remaining []) ≤ length remaining).
  { apply (segmentLoop_induction d (λ remaining tokens,
      Forall (λ token, token ≠ [] ∧ (token ∈ d ∨ length token = 1)) tokens
      ∧ (head remaining ≠ Some 32%N →
         Forall (λ token, head token ≠ Some 32%N) tokens)
      ∧ length tokens ≤ length remaining)).
    - split_and!; [constructor|by constructor|done].
    - intros remaining Hne (IH1 & IH2 & IH3).
      pose proof (iteration_split d remaining Hne) as Hs.
      destruct (iteration d remaining) as [token rest]. simpl in *.
      destruct Hs as (spaces & -> & Hspaces & Htok & Hshape & Hhead).
      split_and!.
      + by constructor.
      + intros Hrem. constructor; [|by apply IH2].
        by destruct token.
      + rewrite !length_app. destruct token; [done|simpl; lia]. }
  split_and!.
  - apply Hall.
  - rewrite segmentLoop_unfold by done. simpl.
    destruct (iteration_split d text Htext) as (_ & _ & _ & _ & _ & Hhead).
    by apply Hall.
  - apply Hall.
Qed.

Lemma dictionaryTokenize_tokens_witness :
  length (dictionaryTokenize (str " ab  c") (Some [str "ab"]))
  ≤ length (str " ab  c").
Proof.
  apply (dictionaryTokenize_tokens (str " ab  c") [str "ab"]). discriminate.
Defined.

(** X3: with a non-empty dictionary the segmentation only ever drops
    spaces: apart from spaces, the tokens concatenated are the text, and a
    text without spaces is reproduced exactly.  (An empty dictionary hands
    the text to the heuristic segmenter, which drops all white space.) *)
Theorem dictionaryTokenize_lossless (text : list N)
    (dictionary : list (list N)) :
  dictionary ≠ [] →
  let tokens := dictionaryTokenize text (Some dictionary) in
  List.filter (λ c, negb (c =? 32)%N) (concat tokens)
  = List.filter (λ c, negb (c =? 32)%N) text
  ∧ (32%N ∉ text → concat tokens = text).
Proof.
  intros Hd tokens. subst tokens. unfold dictionaryTokenize.
  case_bool_decide as Htext; [by subst|].
  destruct dictionary as [|w ws]; [done|]. simpl (length _ =? 0).
  cbv iota. set (d := w :: ws) in *. clear Htext.
  apply (segmentLoop_induction d (λ remaining tokens,
    List.filter (λ c, negb (c =? 32)%N) (concat tokens)
    = List.filter (λ c, negb (c =? 32)%N) remaining
    ∧ (32%N ∉ remaining → concat tokens = remaining))).
  - done.
  - intros remaining Hne [IH1 IH2].
    pose proof (iteration_split d remaining Hne) as Hs.
    destruct (iteration d remaining) as [token rest]. simpl in *.
    destruct Hs as (spaces & -> & Hspaces & _).
    assert (Hnone : List.filter (λ c, negb (c =? 32)%N) spaces = []).
    { clear Hne. induction Hspaces as [|c spaces -> _ IH]; [done|].
      simpl. exact IH. }
    split.
    + by rewrite !List.filter_app, Hnone, IH1.
    + intros Hfree. destruct spaces as [|c spaces].
      * simpl in *. f_equal. apply IH2.
        intros Hin. apply Hfree. apply elem_of_app. by right.
      * exfalso. apply Forall_cons in Hspaces as [-> _].
        apply Hfree. apply elem_of_app. right. by left.
Qed.

Lemma dictionaryTokenize_lossless_witness :
  concat (dictionaryTokenize (str "abcd") (Some [str "bc"])) = str "abcd".
Proof.
  apply (dictionaryTokenize_lossless (str "abcd") [str "bc"]).
  - discriminate.
  - by_evaluation.
Defined.

(** ** The heuristic segmenter, continued *)

Lemma simpleLoop_tokens text tokens currentToken :
  Forall (λ c, thaiPattern c = true) currentToken →
  Forall simpleToken tokens →
  Forall simpleToken (simpleLoop text tokens currentToken).
Proof.
  assert (Hpush : ∀ tokens currentToken,
    Forall (λ c, thaiPattern c = true) currentToken →
    Forall simpleToken tokens →
    Forall simpleToken (if bool_decide (currentToken = []) then tokens
                        else push tokens currentToken)).
  { intros tks cur Hcur Htks. case_bool_decide as Hne; [done|].
    apply Forall_app. split; [done|]. constructor; [|constructor].
    split; [done|by left]. }
  revert tokens currentToken.
  induction text as [|char rest IH]; intros tokens currentToken Hcur Htok;
    cbn [simpleLoop].
  - by apply Hpush.
  - destruct ((char =? 32)%N || negb (thaiPattern char)) eqn:Hboundary.
    + apply IH; [constructor|].
      destruct (bool_decide (trim [char] = [])) eqn:Htrim; [by apply Hpush|].
      apply bool_decide_eq_false in Htrim.
      rewrite trim_unit in Htrim. apply not_true_is_false in Htrim.
      apply Forall_app. split; [by apply Hpush|].
      constructor; [|constructor]. split; [done|]. right. exists char.
      split_and!; [done| |done].
      apply orb_true_iff in Hboundary as [Hsp|Hth].
      * apply N.eqb_eq in Hsp. subst. done.
      * by apply negb_true_iff in Hth.
    + apply orb_false_iff in Hboundary as [_ Hthai].
      apply negb_false_iff in Hthai.
      assert (Hcur' : Forall (λ c, thaiPattern c = true) (currentToken ++ [char])).
      { apply Forall_app. split; [done|by constructor]. }
      destruct (negb (thaiVowelPattern char) && negb (thaiToneMarkPattern char)
                && test thaiVowelPattern (head rest)).
      * apply IH; [constructor|].
        apply Forall_app. split; [done|]. constructor; [|constructor].
        split; [by destruct currentToken|by left].
      * by apply IH.
Qed.

(** X4: every token of the heuristic segmenter is non-empty and is either
    made of Thai code units only or is a single visible code unit from
    outside the Thai block; scripts other than Thai come out one code unit
    per token. *)
Theorem simpleTokenize_tokens (text : list N) :
  Forall simpleToken (simpleTokenize text)
  ∧ ((∀ c, c ∈ text → thaiPattern c = false) →
     simpleTokenize text
     = (λ c, [c]) <$> List.filter (λ c, negb (isWhiteSpace c)) text).
Proof.
  split.
  - apply simpleLoop_tokens; constructor.
  - assert (Hgen : ∀ tokens : list (list N),
      (∀ c, c ∈ text → thaiPattern c = false) →
      simpleLoop text tokens []
      = tokens ++ ((λ c, [c]) <$> List.filter (λ c, negb (isWhiteSpace c)) text)).
    { induction text as [|char rest IH]; intros tokens Hno;
        cbn [simpleLoop List.filter].
      - by rewrite app_nil_r.
      - rewrite (Hno char) by by left. rewrite orb_true_r. cbn [negb].
        rewrite (bool_decide_eq_true_2 ([] = [])) by done.
        rewrite IH by (intros c Hc; apply Hno; by right).
        destruct (isWhiteSpace char) eqn:Hws; cbn [negb].
        + rewrite (bool_decide_eq_true_2 (trim [char] = []))
            by by apply trim_unit.
          done.
        + rewrite (bool_decide_eq_false_2 (trim [char] = []))
            by (rewrite trim_unit; congruence).
          unfold push. by rewrite <- app_assoc. }
    intros Hno. unfold simpleTokenize. by rewrite Hgen.
Qed.

Lemma simpleTokenize_tokens_witness :
  simpleTokenize (str "a b!")
  = (λ c, [c]) <$> List.filter (λ c, negb (isWhiteSpace c)) (str "a b!").
Proof.
  apply (simpleTokenize_tokens (str "a b!")).
  apply Forall_forall. vm_compute. repeat constructor.
Defined.

Lemma boundaryRule_snoc (token : list N) (char : N) :
  boundaryRule token →
  (∀ a, last token = Some a → thaiVowelPattern char = true →
        thaiVowelPattern a || thaiToneMarkPattern a = true) →
  boundaryRule (token ++ [char]).
Proof.
  intros Hrule Hlast i a b Ha Hb Hvowel.
  destruct (Nat.lt_ge_cases (S i) (length token)) as [Hin|Hout].
  - rewrite lookup_app_l in Ha by lia. rewrite lookup_app_l in Hb by lia.
    by apply (Hrule i a b).
  - assert (Hi : S i = length token).
    { apply lookup_lt_Some in Hb. rewrite length_app in Hb. simpl in Hb. lia. }
    rewrite lookup_app_l in Ha by lia.
    rewrite lookup_app_r, Hi, Nat.sub_diag in Hb by lia.
    simpl in Hb. injection Hb as <-.
    apply Hlast; [|done]. rewrite last_lookup.
    by replace (pred (length token)) with i by lia.
Qed.

Lemma simpleLoop_boundaryRule text tokens currentToken :
  Forall boundaryRule tokens →
  boundaryRule currentToken →
  (∀ a, last currentToken = Some a →
        test thaiVowelPattern (head text) = true →
        thaiVowelPattern a || thaiToneMarkPattern a = true) →
  Forall boundaryRule (simpleLoop text tokens currentToken).
Proof.
  assert (Hnil : boundaryRule []) by (intros i a b Ha; done).
  assert (Hunit : ∀ c, boundaryRule [c]).
  { intros c i a b _ Hb. by destruct i. }
  assert (Hpush : ∀ tokens currentToken,
    Forall boundaryRule tokens → boundaryRule currentToken →
    Forall boundaryRule (if bool_decide (currentToken = []) then tokens
                         else push tokens currentToken)).
  { intros tks cur Htks Hcur. case_bool_decide; [done|].
    apply Forall_app. split; [done|]. by repeat constructor. }
  revert tokens currentToken.
  induction text as [|char rest IH]; intros tokens currentToken Htok Hcur Hlast;
    cbn [simpleLoop].
  - by apply Hpush.
  - destruct ((char =? 32)%N || negb (thaiPattern char)).
    + apply IH; [|done|done].
      destruct (bool_decide (trim [char] = [])); [by apply Hpush|].
      apply Forall_app. split; [by apply Hpush|]. by repeat constructor.
    + assert (Hcur' : boundaryRule (currentToken ++ [char])).
      { apply boundaryRule_snoc; [done|]. intros a Ha Hv. by apply Hlast. }
      destruct (negb (thaiVowelPattern char) && negb (thaiToneMarkPattern char)
                && test thaiVowelPattern (head rest)) eqn:Hcut.
      * apply IH; [|done|done].
        apply Forall_app. split; [done|]. by repeat constructor.
      * apply IH; [done|done|].
        intros a Ha Hnext. rewrite last_snoc in Ha. injection Ha as <-.
        rewrite Hnext, andb_true_r in Hcut.
        destruct (thaiVowelPattern char), (thaiToneMarkPattern char); done.
Qed.

(** X5: the heuristic cuts before every vowel sign that follows a
    consonant, so inside a token a vowel sign is only ever preceded by
    another vowel sign or by a tone mark. *)
Theorem simpleTokenize_boundaryRule (text : list N) :
  Forall boundaryRule (simpleTokenize text).
Proof. apply simpleLoop_boundaryRule; [constructor|done|done]. Qed.

(** ** The universal word pattern *)

Section WordPattern.
Context {E : Engine}.

Lemma flush_ok (st : matcher) :
  matcherOk st → Forall (λ m, letterRun m ∨ digitRun m) (flush st).
Proof.
  destruct st as [|word marks|digits]; simpl.
  - constructor.
  - intros [Hword _]. constructor; [by left|constructor].
  - intros Hdigits. constructor; [by right|constructor].
Qed.

Lemma letterRun_unit (c : N) : general_category c = Letter → letterRun [c].
Proof.
  intros Hc. split_and!.
  - constructor; [by left|constructor].
  - by exists c.
  - by exists c.
Qed.

Lemma digitRun_unit (c : N) : general_category c = Number → digitRun [c].
Proof. intros Hc. split; [done|]. constructor; [done|constructor]. Qed.

(** A letter continues the word through the marks set aside. *)
Lemma letterRun_continue (word marks : list N) (c : N) :
  letterRun word → Forall (λ c, general_category c = Mark) marks →
  general_category c = Letter → letterRun (word ++ marks ++ [c]).
Proof.
  intros (Hall & (h & Hh & HhL) & _) Hmarks Hc. split_and!.
  - apply Forall_app. split; [done|]. apply Forall_app. split.
    + eapply Forall_impl; [exact Hmarks|]. intros x Hx. by right.
    + constructor; [by left|constructor].
  - exists h. split; [|done]. by destruct word.
  - exists c. split; [|done]. by rewrite !app_assoc, last_snoc.
Qed.

Lemma advance_ok (st : matcher) (c : N) :
  matcherOk st →
  matcherOk (advance st c).1
  ∧ Forall (λ m, letterRun m ∨ digitRun m) (advance st c).2.
Proof.
  intros Hst. pose proof (flush_ok st Hst) as Hflush. unfold advance.
  destruct (general_category c) eqn:Hc, st as [|word marks|digits];
    simpl in *.
  - split; [|constructor]. split; [by apply letterRun_unit|constructor].
  - destruct Hst as [Hword Hmarks]. split; [|constructor].
    split; [by apply letterRun_continue|constructor].
  - split; [|done]. split; [by apply letterRun_unit|constructor].
  - split; [done|constructor].
  - destruct Hst as [Hword Hmarks]. split; [|constructor].
    split; [done|]. apply Forall_app. split; [done|].
    constructor; [done|constructor].
  - split; done.
  - split; [by apply digitRun_unit|constructor].
  - split; [by apply digitRun_unit|done].
  - destruct Hst as [Hne Hall]. split; [|constructor]. split.
    + by destruct digits.
    + apply Forall_app. split; [done|]. constructor; [done|constructor].
  - split; [done|constructor].
  - split; done.
  - split; done.
Qed.

Lemma matchRun_ok (cps : list N) (st : matcher) :
  matcherOk st → Forall (λ m, letterRun m ∨ digitRun m) (matchRun st cps).
Proof.
  revert st. induction cps as [|c cps IH]; intros st Hst; cbn [matchRun].
  - by apply flush_ok.
  - destruct (advance_ok st c Hst) as [Hnext Hout].
    destruct (advance st c) as [st' out]. simpl in *.
    apply Forall_app. split; [done|by apply IH].
Qed.

Lemma matchRun_none (cps : list N) :
  (∀ c, c ∈ cps → general_category c ≠ Letter ∧ general_category c ≠ Number) →
  matchRun Idle cps = [].
Proof.
  induction cps as [|c cps IH]; intros Hno; cbn [matchRun]; [done|].
  destruct (Hno c ltac:(by left)) as [HL HN]. unfold advance.
  destruct (general_category c); try done; simpl;
    apply IH; intros x Hx; apply Hno; by right.
Qed.

End WordPattern.

(** X6: every token of the universal word pattern is the UTF-16 form of
    either a non-empty run of digits, or a run of letters and marks that
    begins and ends with a letter: letters and digits never share a token,
    and no other character is ever part of one.  A text without letters
    and digits has no token. *)
Theorem matchAll_shapes (E : Engine) (text : list N) :
  (∀ token, token ∈ matchAll text →
     ∃ m, token = m ≫= codeUnits ∧ (letterRun m ∨ digitRun m))
  ∧ ((∀ c, c ∈ codePoints text →
           general_category c ≠ Letter ∧ general_category c ≠ Number) →
     matchAll text = []).
Proof.
  unfold matchAll. split.
  - intros token (m & -> & Hm)%list_elem_of_fmap. exists m. split; [done|].
    pose proof (matchRun_ok (codePoints text) Idle I) as Hall.
    rewrite Forall_forall in Hall. by apply Hall.
  - intros Hno. by rewrite matchRun_none.
Qed.

Lemma matchAll_shapes_witness :
  matchAll (E := latin_engine) (str "?! ,") = [].
Proof.
  apply (matchAll_shapes latin_engine (str "?! ,")).
  apply Forall_forall. vm_compute. repeat constructor; discriminate.
Defined.

(** ** The pipeline, continued *)

(** X7: for the language th neither the lowercase option nor the stemming
    option has any effect on the tokens: case folding and stemming are
    both skipped, whatever the two options say. *)
Theorem thai_ignores_case_and_stemming (E : Engine) (t : Tokenizer)
    (text : value) (fold stem : bool) :
  language (options t) = str "th" →
  tokenize (with_lowercase fold (with_stemming stem t)) text = tokenize t text.
Proof.
  intros Hth. unfold tokenize.
  destruct (negb (truthy text) || negb (isString text)); [done|].
  destruct text; try done.
  unfold stemmingStage, stopwordStage, lowercaseStage, segment, includes.
  simpl. rewrite Hth.
  rewrite (bool_decide_eq_false_2 _ th_not_stemmable).
  rewrite (bool_decide_eq_true_2 (str "th" = str "th")) by done.
  cbn [negb]. by rewrite !andb_false_r.
Qed.

Lemma thai_ignores_case_and_stemming_witness :
  tokenize (E := latin_engine)
    (with_lowercase false (with_stemming true (thai None)))
    (VString (str "Running Dogs"))
  = tokenize (E := latin_engine) (thai None) (VString (str "Running Dogs")).
Proof.
  apply (thai_ignores_case_and_stemming latin_engine (thai None)).
  reflexivity.
Defined.

(** X8: for every language other than th the Thai dictionary is never
    consulted: installing, replacing or removing it leaves the tokens
    unchanged. *)
Theorem dictionary_ignored_outside_thai (E : Engine) (t : Tokenizer)
    (text : value) (dictionary : option (list (list N))) :
  language (options t) ≠ str "th" →
  tokenize (setDictionary t dictionary) text = tokenize t text.
Proof.
  intros Hth. unfold tokenize.
  destruct (negb (truthy text) || negb (isString text)); [done|].
  destruct text; try done.
  unfold stemmingStage, stopwordStage, lowercaseStage, segment, includes.
  simpl. by rewrite !(bool_decide_eq_false_2 _ Hth).
Qed.

Lemma dictionary_ignored_outside_thai_witness :
  tokenize (E := latin_engine) (setDictionary english (Some [str "ab"]))
    (VString (str "abab"))
  = tokenize (E := latin_engine) english (VString (str "abab")).
Proof.
  apply (dictionary_ignored_outside_thai latin_engine english).
  vm_compute. discriminate.
Defined.

Lemma unit_windows (tokens : list (list N)) (sep : list N) :
  (λ j, join sep (window tokens 1 j)) <$> seq 0 (length tokens) = tokens.
Proof.
  induction tokens as [|token tokens IH]; [done|].
  cbn [length seq fmap list_fmap]. f_equal.
  rewrite <- fmap_S_seq, <- list_fmap_compose. rewrite <- IH at 2.
  apply list_fmap_ext. by intros i j _.
Qed.

(** X9: the 1-grams of a text are its tokens. *)
Theorem unigrams_are_tokens (E : Engine) (t : Tokenizer) (text : value) :
  ngramTokenize t text 1 = tokenize t text.
Proof.
  unfold ngramTokenize.
  destruct (negb (truthy text) || negb (isString text)) eqn:Hbad.
  - unfold tokenize. by rewrite Hbad.
  - simpl.
    rewrite (ngramLoop_windows _ 1 (length (tokenize t text))) by lia.
    simpl. apply unit_windows.
Qed.

(** ** The two versions of the tokenizer *)

(** X10: the single-file version and the modular one compute the same
    tokens whenever stemming is off, or the language is th or one of the
    stemmable ones; they part only where the older one stems a language
    the newer one leaves alone. *)
Theorem legacy_tokenize_agrees (E : Engine) (t : Tokenizer) (text : value) :
  stemming (options t) = false ∨ language (options t) = str "th"
  ∨ language (options t) ∈ stemmable →
  Legacy.tokenize t text = tokenize t text.
Proof.
  intros Hcase. unfold Legacy.tokenize, tokenize.
  destruct (negb (truthy text) || negb (isString text)); [done|].
  destruct text as [| | | | |s|]; try done.
  assert (Hstem : ∀ tokens,
    Legacy.stemmingStage t tokens = stemmingStage t tokens).
  { intros tokens. destruct Hcase as [Hoff|Hlang].
    - unfold Legacy.stemmingStage, stemmingStage. by rewrite Hoff.
    - apply legacy_stemmingStage. tauto. }
  assert (Hsegment :
    (if bool_decide (language (options t) = str "th")
        && bool_decide (is_Some (thaiDictionary (options t)))
     then Legacy.tokenizeThai t s else matchAll s) = segment t s).
  { unfold segment.
    destruct (bool_decide (language (options t) = str "th")); [|done].
    unfold Legacy.tokenizeThai, Legacy.dictionaryThaiTokenize,
      dictionaryTokenize.
    destruct (thaiDictionary (options t)) as [words|]; [|done].
    by rewrite (bool_decide_eq_false_2 (Some words = None)). }
  cbv zeta. by rewrite Hstem, Hsegment.
Qed.

Lemma legacy_tokenize_agrees_witness :
  Legacy.tokenize (E := latin_engine) (thai (Some [str "ab"]))
    (VString (str "abc ab"))
  = tokenize (E := latin_engine) (thai (Some [str "ab"]))
      (VString (str "abc ab")).
Proof.
  apply (legacy_tokenize_agrees latin_engine (thai (Some [str "ab"]))).
  right. left. reflexivity.
Defined.

(** ** Token frequencies, continued *)

Lemma occurrences_zero (key : list N) (tokens : list (list N)) :
  occurrences key tokens = 0 ↔ key ∉ tokens.
Proof.
  unfold occurrences. induction tokens as [|token tokens IH]; simpl.
  - split; [intros _; apply not_elem_of_nil|done].
  - rewrite filter_cons, not_elem_of_cons.
    destruct (decide (token = key)) as [->|Hne]; simpl.
    + split; [done|]. by intros [? _].
    + rewrite IH. split; [by intros ?; split|by intros [_ ?]].
Qed.

(** X11: as long as no token names a property that an object literal
    inherits, the frequency object has one entry per distinct token and
    the entry is the number of occurrences of the token. *)
Theorem frequency_exact (E : Engine) (t : Tokenizer) (text : value) :
  Forall (λ token, objectPrototype token = None) (tokenize t text) →
  dom (getTokenFrequency t text) = list_to_set (tokenize t text)
  ∧ ∀ key, key ∈ tokenize t text →
           getTokenFrequency t text !! key
           = Some (VNumber (Z.of_nat (occurrences key (tokenize t text))))
           ∧ 1 ≤ occurrences key (tokenize t text).
Proof.
  intros Hown. unfold getTokenFrequency. split.
  - apply set_eq. intros key.
    rewrite elem_of_dom, elem_of_list_to_set, (foldl_countToken _ key Hown).
    destruct (Nat.eqb_spec (occurrences key (tokenize t text)) 0) as [H0|H0].
    + apply occurrences_zero in H0.
      split; [by intros ?%is_Some_None|done].
    + rewrite occurrences_zero in H0. split; [intros _|intros _; by eexists].
      by destruct (decide (key ∈ tokenize t text)).
  - intros key Hkey. rewrite (foldl_countToken _ key Hown).
    assert (occurrences key (tokenize t text) ≠ 0) as Hpos.
    { rewrite occurrences_zero. tauto. }
    destruct (Nat.eqb_spec (occurrences key (tokenize t text)) 0); [done|].
    split; [done|lia].
Qed.

Lemma frequency_exact_witness :
  dom (getTokenFrequency (E := latin_engine) english
         (VString (str "the cat in the hat")))
  = list_to_set (tokenize (E := latin_engine) english
                   (VString (str "the cat in the hat"))).
Proof.
  apply (frequency_exact latin_engine english
           (VString (str "the cat in the hat"))).
  vm_compute. repeat constructor.
Defined.

Lemma ones_S (k : nat) : ones (S k) = ones k ++ str "1".
Proof.
  unfold ones. rewrite replicate_S_end, concat_app. cbn [concat].
  by rewrite app_nil_r.
Qed.

Lemma foldl_countToken_inherited (tokens : list (list N)) (key repr : list N) :
  objectPrototype key = Some (VObject repr) → key ≠ str "__proto__" →
  foldl countToken ∅ tokens !! key
  = if occurrences key tokens =? 0 then None
    else Some (VString (repr ++ ones (occurrences key tokens))).
Proof.
  intros Hinherit Hproto.
  induction tokens as [|token tokens IH] using rev_ind.
  - apply lookup_empty.
  - rewrite foldl_snoc, occurrences_snoc.
    set (frequency := foldl countToken ∅ tokens) in *.
    unfold countToken, setProperty.
    destruct (decide (token = key)) as [->|Hne].
    + rewrite (bool_decide_eq_false_2 _ Hproto), lookup_insert_eq.
      unfold getProperty. rewrite IH, Hinherit.
      destruct (Nat.eqb_spec (occurrences key tokens) 0) as [H0|H0].
      * rewrite H0. done.
      * destruct (Nat.eqb_spec (occurrences key tokens + 1) 0); [lia|].
        replace (occurrences key tokens + 1) with (S (occurrences key tokens))
          by lia.
        rewrite ones_S. unfold or_else. simpl.
        rewrite bool_decide_eq_false_2; [by rewrite app_assoc|].
        destruct (occurrences key tokens) as [|k]; [done|].
        rewrite ones_S. intros Hnil. apply app_eq_nil in Hnil as [_ Hnil].
        apply app_eq_nil in Hnil as [_ Hnil]. discriminate.
    + rewrite Nat.add_0_r. case_bool_decide; [done|].
      by rewrite lookup_insert_ne.
Qed.

Lemma foldl_countToken_proto (tokens : list (list N)) :
  foldl countToken ∅ tokens !! str "__proto__" = None.
Proof.
  induction tokens as [|token tokens IH] using rev_ind.
  - apply lookup_empty.
  - rewrite foldl_snoc. unfold countToken at 1, setProperty.
    case_bool_decide as Hproto; [done|]. by rewrite lookup_insert_ne.
Qed.

(** X12: a token that names a function inherited from [Object.prototype]
    never gets a count: after [k ≥ 1] occurrences its entry is the text of
    that function followed by [k] digits "1"; and the token "__proto__" is
    never recorded at all. *)
Theorem frequency_inherited (E : Engine) (t : Tokenizer) (text : value) :
  (∀ key repr,
     objectPrototype key = Some (VObject repr) → key ≠ str "__proto__" →
     key ∈ tokenize t text →
     getTokenFrequency t text !! key
     = Some (VString (repr ++ ones (occurrences key (tokenize t text))))
     ∧ 1 ≤ occurrences key (tokenize t text))
  ∧ getTokenFrequency t text !! str "__proto__" = None.
Proof.
  unfold getTokenFrequency. split.
  - intros key repr Hinherit Hproto Hkey.
    rewrite (foldl_countToken_inherited _ key repr Hinherit Hproto).
    assert (occurrences key (tokenize t text) ≠ 0) as Hpos.
    { rewrite occurrences_zero. tauto. }
    destruct (Nat.eqb_spec (occurrences key (tokenize t text)) 0); [done|].
    split; [done|lia].
  - apply foldl_countToken_proto.
Qed.

Lemma frequency_inherited_witness :
  getTokenFrequency (E := latin_engine) (with_lowercase false english)
    (VString (str "valueOf x valueOf")) !! str "valueOf"
  = Some (VString (str "function valueOf() { [native code] }11")).
Proof.
  apply (proj1 (frequency_inherited latin_engine (with_lowercase false english)
                  (VString (str "valueOf x valueOf"))) (str "valueOf")
           (str "function valueOf() { [native code] }")).
  - vm_compute. reflexivity.
  - vm_compute. discriminate.
  - by_evaluation.
Defined.

(** ** The stopword set *)

Section StopwordSet.
Context {E : Engine}.

Lemma foldl_addStopword (items : list value) (words : gset (list N))
    (w : list N) :
  w ∈ foldl addStopword words items
  ↔ w ∈ words ∨ ∃ s, VString s ∈ items ∧ w = toLowerCase s.
Proof.
  revert words. induction items as [|item items IH]; intros words; simpl.
  - split; [by left|]. intros [?|(s & Hs & _)]; [done|].
    by apply elem_of_nil in Hs.
  - rewrite IH. split.
    + intros [Hw|(s & Hs & ->)].
      * destruct item; simpl in Hw; try (by left).
        apply elem_of_union in Hw as [->%elem_of_singleton|Hw]; [|by left].
        right. eexists. split; [by left|done].
      * right. exists s. split; [by right|done].
    + intros [Hw|(s & Hs & ->)].
      * left. destruct item; simpl; try done. apply elem_of_union. by right.
      * apply elem_of_cons in Hs as [<-|Hs].
        -- left. simpl. apply elem_of_union. left. by apply elem_of_singleton.
        -- right. by exists s.
Qed.

Lemma foldl_deleteStopword (items : list value) (words : gset (list N))
    (w : list N) :
  w ∈ foldl deleteStopword words items
  ↔ w ∈ words ∧ ∀ s, VString s ∈ items → w ≠ toLowerCase s.
Proof.
  revert words. induction items as [|item items IH]; intros words; simpl.
  - split; [|by intros [? _]]. intros Hw. split; [done|].
    intros s Hs. by apply elem_of_nil in Hs.
  - rewrite IH. split.
    + intros [Hw Hrest]. destruct item; simpl in Hw;
        try (split; [done|]; intros s [Hs|Hs]%elem_of_cons;
             [discriminate|by apply Hrest]).
      apply elem_of_difference in Hw as [Hw Hne].
      split; [done|]. intros s' [Hs|Hs]%elem_of_cons; [|by apply Hrest].
      injection Hs as ->. intros ->. apply Hne. by apply elem_of_singleton.
    + intros [Hw Hall]. split.
      * destruct item; simpl; try done. apply elem_of_difference.
        split; [done|]. intros ->%elem_of_singleton.
        by apply (Hall s); [left|].
      * intros s Hs. apply Hall. by right.
Qed.

End StopwordSet.

(** X13: [addStopwords] adds exactly the lowercase forms of the strings of
    the array, skips what is not a string, keeps the options, and ignores
    an argument that is not an array. *)
Theorem addStopwords_members (E : Engine) (t : Tokenizer)
    (items : list value) :
  (∀ w, w ∈ stopwords (addStopwords t (ArrayOf items))
        ↔ w ∈ stopwords t ∨ ∃ s, VString s ∈ items ∧ w = toLowerCase s)
  ∧ options (addStopwords t (ArrayOf items)) = options t
  ∧ addStopwords t NotArray = t.
Proof.
  split_and!; [|done|done]. intros w. apply foldl_addStopword.
Qed.

(** X14: [removeStopwords] deletes exactly the lowercase forms of the
    strings of the array, built-in words included; removing the words
    just added gives the instance back whenever none of them was a
    stopword before. *)
Theorem removeStopwords_members (E : Engine) (t : Tokenizer)
    (items : list value) :
  (∀ w, w ∈ stopwords (removeStopwords' t (ArrayOf items))
        ↔ w ∈ stopwords t ∧ ∀ s, VString s ∈ items → w ≠ toLowerCase s)
  ∧ ((∀ s, VString s ∈ items → toLowerCase s ∉ stopwords t) →
     removeStopwords' (addStopwords t (ArrayOf items)) (ArrayOf items) = t).
Proof.
  split.
  - intros w. apply foldl_deleteStopword.
  - intros Hnew. destruct t as [o words]. unfold removeStopwords', addStopwords,
      setStopwords. simpl in *. f_equal. apply set_eq. intros w.
    rewrite foldl_deleteStopword, foldl_addStopword. split.
    + intros [[Hw|(s & Hs & ->)] Hno]; [done|]. by destruct (Hno s Hs).
    + intros Hw. split; [by left|]. intros s Hs ->. by apply (Hnew s).
Qed.

Lemma removeStopwords_members_witness :
  removeStopwords' (E := latin_engine)
    (addStopwords (E := latin_engine) english
       (ArrayOf [VString (str "Foo"); VNull]))
    (ArrayOf [VString (str "Foo"); VNull])
  = english.
Proof.
  apply (removeStopwords_members latin_engine english
           [VString (str "Foo"); VNull]).
  intros s Hs. apply not_elem_of_empty.
Defined.

(** X15: once a word has been added, and with stopword removal on and
    stemming off, no token that equals it up to case is ever returned. *)
Theorem added_stopword_removed (E : Engine) (t : Tokenizer)
    (items : list value) (s : list N) (text : value) :
  removeStopwords (options t) = true → stemming (options t) = false →
  VString s ∈ items →
  ∀ token, token ∈ tokenize (addStopwords t (ArrayOf items)) text →
           toLowerCase token ≠ toLowerCase s.
Proof.
  intros Hon Hoff Hs token. unfold tokenize.
  destruct (negb (truthy text) || negb (isString text));
    [by intros ?%elem_of_nil|].
  destruct text; try (by intros ?%elem_of_nil).
  unfold stemmingStage, stopwordStage. simpl. rewrite Hon, Hoff. simpl.
  rewrite (filter_bool_decide
             (λ token, toLowerCase token ∈ foldl addStopword (stopwords t) items)).
  intros [Hout _]%list_elem_of_filter Heq. apply Hout.
  apply foldl_addStopword. right. by exists s.
Qed.

Lemma added_stopword_removed_witness :
  toLowerCase (Engine := latin_engine) (str "sat")
  ≠ toLowerCase (Engine := latin_engine) (str "CAT").
Proof.
  apply (added_stopword_removed latin_engine raw_case [VString (str "CAT")]
           (str "CAT") (VString (str "The Cat sat")));
    [reflexivity|reflexivity|by left|by_evaluation].
Defined.

(** ** The constructor *)

(** X16: whatever the language and whatever the language file holds, the
    built-in English words are stopwords of a new instance, and so is the
    lowercase form of every custom stopword; for the language en the
    language file is not read; and an entry of the file that is not a
    string ends the loading silently, the words before it being kept. *)
Theorem construct_stopwords (E : Engine) (given : GivenOptions)
    (languageStopwords : option argument) :
  (∀ w, w ∈ englishStopwords →
        w ∈ stopwords (construct given languageStopwords))
  ∧ (∀ s, s ∈ default [] (given_customStopwords given) →
          toLowerCase s ∈ stopwords (construct given languageStopwords))
  ∧ (language (fillOptions given) = str "en" →
     construct given languageStopwords = construct given None)
  ∧ (∀ loaded bad rest, isString bad = false →
       construct given (Some (ArrayOf ((VString <$> loaded) ++ bad :: rest)))
       = construct given (Some (ArrayOf (VString <$> loaded)))).
Proof.
  assert (Hfold : ∀ (custom : list (list N)) (words : gset (list N)) w,
    w ∈ foldl (λ words word, {[ toLowerCase word ]} ∪ words) words custom
    ↔ w ∈ words ∨ ∃ s, s ∈ custom ∧ w = toLowerCase s).
  { induction custom as [|c custom IH]; intros words w; simpl.
    - split; [by left|]. intros [?|(s & Hs & _)]; [done|].
      by apply elem_of_nil in Hs.
    - rewrite IH, elem_of_union, elem_of_singleton. split.
      + intros [[->|Hw]|(s & Hs & ->)].
        * right. exists c. split; [by left|done].
        * by left.
        * right. exists s. split; [by right|done].
      + intros [Hw|(s & [->|Hs]%elem_of_cons & ->)].
        * left. by right.
        * left. by left.
        * right. by exists s. }
  assert (Hlang : ∀ items (words : gset (list N)) w,
    w ∈ words → w ∈ addLanguageStopwords words items).
  { induction items as [|item items IH]; intros words w Hw; [done|].
    destruct item; simpl; try done. apply IH. apply elem_of_union. by right. }
  split_and!.
  - intros w Hw. unfold construct, setupStopwords. simpl.
    apply Hfold. left.
    assert (Hbase : w ∈ (list_to_set englishStopwords : gset (list N)))
      by by apply elem_of_list_to_set.
    case_bool_decide; [exact Hbase|].
    destruct languageStopwords as [[|items]|];
      [exact Hbase|by apply Hlang|exact Hbase].
  - intros s Hs. unfold construct, setupStopwords. simpl.
    apply Hfold. right. by exists s.
  - intros Hen. unfold construct, setupStopwords.
    by rewrite (bool_decide_eq_true_2 _ Hen).
  - intros loaded bad rest Hbad. unfold construct, setupStopwords. do 2 f_equal.
    case_bool_decide; [done|].
    generalize (list_to_set englishStopwords : gset (list N)).
    induction loaded as [|s loaded IH]; intros words; simpl.
    + by destruct bad.
    + apply IH.
Qed.

Lemma construct_stopwords_witness :
  str "the"
  ∈ stopwords (construct (E := latin_engine) thai_given
                 (Some (ArrayOf [VString (str "x"); VNull]))).
Proof.
  apply (proj1 (construct_stopwords latin_engine thai_given
                  (Some (ArrayOf [VString (str "x"); VNull])))).
  by_evaluation.
Defined.

(** ** Building the dictionary *)

Lemma trimStart_suffix (s : list N) : trimStart s `suffix_of` s.
Proof.
  induction s as [|c s IH]; simpl; [done|].
  destruct (isWhiteSpace c); [by apply suffix_cons_r|done].
Qed.

Lemma trimStart_head (s : list N) (c : N) :
  head (trimStart s) = Some c → isWhiteSpace c = false.
Proof.
  induction s as [|a s IH]; simpl; [done|].
  destruct (isWhiteSpace a) eqn:Ha; [done|].
  simpl. by intros [= <-].
Qed.

Lemma trimStart_fixed (s : list N) :
  (∀ c, head s = Some c → isWhiteSpace c = false) → trimStart s = s.
Proof.
  destruct s as [|a s]; simpl; [done|]. intros Hhead.
  by rewrite (Hhead a eq_refl).
Qed.

(** The two ends of a trimmed string are visible. *)
Lemma trim_ends (s : list N) (c : N) :
  head (trim s) = Some c ∨ last (trim s) = Some c → isWhiteSpace c = false.
Proof.
  unfold trim.
  set (a := trimStart s). set (b := trimStart (reverse a)).
  destruct (trimStart_suffix (reverse a)) as [k Hk]. fold b in Hk.
  assert (Ha : a = reverse b ++ reverse k).
  { by rewrite <- reverse_app, <- Hk, reverse_involutive. }
  intros [Hhead|Hlast].
  - apply (trimStart_head s). fold a. rewrite Ha.
    destruct (reverse b); [done|]. exact Hhead.
  - apply (trimStart_head (reverse a)). fold b.
    by rewrite last_reverse in Hlast.
Qed.

Lemma trim_fixed (s : list N) :
  (∀ c, head s = Some c ∨ last s = Some c → isWhiteSpace c = false) →
  trim s = s.
Proof.
  intros Hends. unfold trim.
  rewrite (trimStart_fixed s) by (intros c Hc; apply Hends; by left).
  rewrite (trimStart_fixed (reverse s)).
  - by rewrite reverse_involutive.
  - intros c Hc. apply Hends. right. by rewrite <- head_reverse.
Qed.

Lemma trim_idempotent (s : list N) : trim (trim s) = trim s.
Proof. apply trim_fixed. apply trim_ends. Qed.

Lemma setAdd_elem_of (set : list (list N)) (x y : list N) :
  y ∈ setAdd set x ↔ y ∈ set ∨ y = x.
Proof.
  unfold setAdd. case_bool_decide as Hx.
  - split; [by left|]. by intros [?| ->].
  - by rewrite elem_of_app, list_elem_of_singleton.
Qed.

Lemma setAdd_prefix (set : list (list N)) (x : list N) :
  set `prefix_of` setAdd set x.
Proof. unfold setAdd. case_bool_decide; [done|]. by apply prefix_app_r. Qed.

Lemma setAdd_wellFormed (set : list (list N)) (x : list N) :
  wellFormed set → properEntry x → wellFormed (setAdd set x).
Proof.
  intros [Hnodup Hall] Hx. unfold setAdd. case_bool_decide as Hin; [done|].
  split.
  - apply NoDup_app. split_and!; [done| |apply NoDup_singleton].
    intros y Hy ->%list_elem_of_singleton. done.
  - apply Forall_app. split; [done|]. by constructor.
Qed.

Lemma properEntry_trim (s : list N) : trim s ≠ [] → properEntry (trim s).
Proof. intros Hne. split; [done|apply trim_idempotent]. Qed.

(** The loop shared by the loaders and [addThaiWords], over the strings
    that are offered. *)
Lemma foldl_addLine (lines : list (list N)) (dictionary : list (list N)) :
  dictionary `prefix_of` foldl addLine dictionary lines
  ∧ (wellFormed dictionary → wellFormed (foldl addLine dictionary lines))
  ∧ ∀ w, w ∈ foldl addLine dictionary lines
         ↔ w ∈ dictionary ∨ ∃ s, s ∈ lines ∧ trim s ≠ [] ∧ w = trim s.
Proof.
  revert dictionary.
  induction lines as [|line lines IH]; intros dictionary; simpl.
  - split_and!; [done|done|]. intros w. split; [by left|].
    intros [?|(s & Hs & _)]; [done|]. by apply elem_of_nil in Hs.
  - destruct (IH (addLine dictionary line)) as (Hpre & Hwf & Hmem).
    assert (Hstep : dictionary `prefix_of` addLine dictionary line).
    { unfold addLine. case_bool_decide; [done|]. apply setAdd_prefix. }
    split_and!.
    + by etrans.
    + intros Hd. apply Hwf. unfold addLine. case_bool_decide as Hline; [done|].
      apply setAdd_wellFormed; [done|]. by apply properEntry_trim.
    + intros w. rewrite Hmem. unfold addLine. case_bool_decide as Hline.
      * split.
        -- intros [?|(s & Hs & ? & ?)]; [by left|].
           right. exists s. split; [by right|done].
        -- intros [?|(s & [->|Hs]%elem_of_cons & Hne & ?)]; [by left|done|].
           right. by exists s.
      * rewrite setAdd_elem_of. split.
        -- intros [[?| ->]|(s & Hs & ? & ?)]; [by left| |].
           ++ right. exists line. split; [by left|done].
           ++ right. exists s. split; [by right|done].
        -- intros [?|(s & [->|Hs]%elem_of_cons & Hne & ->)].
           ++ left. by left.
           ++ left. by right.
           ++ right. by exists s.
Qed.

Lemma foldl_addThaiWord (items : list value) (dictionary : list (list N)) :
  foldl addThaiWord dictionary items = foldl addLine dictionary (strings items).
Proof.
  revert dictionary. induction items as [|item items IH]; intros d; [done|].
  destruct item; simpl; by rewrite IH.
Qed.

Lemma elem_of_strings (items : list value) (s : list N) :
  s ∈ strings items ↔ VString s ∈ items.
Proof.
  unfold strings. rewrite list_elem_of_omap. split.
  - intros (item & Hitem & Hs). destruct item; try done. by injection Hs as ->.
  - intros Hs. by exists (VString s).
Qed.

(** X17: [addThaiWords] always leaves a dictionary installed; it keeps the
    entries already there, in their places, and adds, trimmed, exactly the
    strings of the array that are not blank.  A dictionary that holds no
    empty, untrimmed or repeated entry stays that way, so no dictionary
    built from nothing by this method contains the empty string. *)
Theorem addThaiWords_dictionary (t : Tokenizer) (words : argument) :
  let before := default [] (thaiDictionary (options t)) in
  ∃ after,
    thaiDictionary (options (addThaiWords t words)) = Some after
    ∧ before `prefix_of` after
    ∧ (wellFormed before → wellFormed after ∧ [] ∉ after)
    ∧ (words = NotArray → after = before)
    ∧ (∀ items, words = ArrayOf items →
         ∀ w, w ∈ after
              ↔ w ∈ before ∨ ∃ s, VString s ∈ items ∧ trim s ≠ [] ∧ w = trim s).
Proof.
  intros before.
  assert (Hempty : ∀ d, wellFormed d → wellFormed d ∧ [] ∉ d).
  { intros d Hd. split; [done|]. intros Hin. destruct Hd as [_ Hall].
    rewrite Forall_forall in Hall. by destruct (Hall [] Hin). }
  unfold addThaiWords. fold before. destruct words as [|items]; simpl.
  - exists before. split_and!; [done|done|by apply Hempty|done|done].
  - rewrite foldl_addThaiWord.
    destruct (foldl_addLine (strings items) before) as (Hpre & Hwf & Hmem).
    eexists. split_and!; [done|done| |done|].
    + intros Hd. apply Hempty. by apply Hwf.
    + intros items' [= <-] w. rewrite Hmem.
      by setoid_rewrite elem_of_strings.
Qed.

Lemma addThaiWords_dictionary_witness :
  ∃ after,
    thaiDictionary
      (options (addThaiWords (thai None)
                  (ArrayOf [VString (str " ab "); VNull; VString (str "  ")])))
    = Some after
    ∧ wellFormed after ∧ [] ∉ after.
Proof.
  destruct (addThaiWords_dictionary (thai None)
              (ArrayOf [VString (str " ab "); VNull; VString (str "  ")]))
    as (after & Hafter & _ & Hwf & _).
  exists after. split; [exact Hafter|]. apply Hwf.
  split; [apply NoDup_nil_2|constructor].
Defined.

Section ThaiMode.
Context {E : Engine}.

Lemma tokenize_thai_segment (t : Tokenizer) (text : list N) :
  language (options t) = str "th" → text ≠ [] →
  tokenize t (VString text) = stopwordStage t (segment t text).
Proof.
  intros Hth Htext. rewrite tokenize_string by done.
  unfold stemmingStage, lowercaseStage, includes. rewrite Hth.
  rewrite (bool_decide_eq_false_2 _ th_not_stemmable).
  rewrite (bool_decide_eq_true_2 (str "th" = str "th")) by done.
  cbn [negb]. by rewrite !andb_false_r.
Qed.

End ThaiMode.

(** X18: on an instance for th without a dictionary, a call of
    [addThaiWords] that adds no word still installs an (empty) dictionary,
    and with it the segmentation changes from the universal word pattern
    to the heuristic segmenter. *)
Theorem addThaiWords_switches_mode (E : Engine) (t : Tokenizer)
    (words : argument) (text : list N) :
  language (options t) = str "th" → thaiDictionary (options t) = None →
  text ≠ [] →
  (∀ items, words = ArrayOf items → Forall blank items) →
  tokenize t (VString text) = stopwordStage t (matchAll text)
  ∧ tokenize (addThaiWords t words) (VString text)
    = stopwordStage t (simpleTokenize text).
Proof.
  intros Hth Hnone Htext Hblank. split.
  - rewrite tokenize_thai_segment by done. unfold segment.
    by rewrite Hnone, andb_false_r.
  - rewrite tokenize_thai_segment by done.
    assert (Hdict : thaiDictionary (options (addThaiWords t words)) = Some []).
    { unfold addThaiWords. rewrite Hnone. simpl. f_equal.
      destruct words as [|items]; [done|].
      specialize (Hblank items eq_refl).
      induction Hblank as [|item items Hitem _ IH]; [done|].
      simpl. destruct item; try done. simpl in Hitem.
      unfold addThaiWord at 2. by rewrite (bool_decide_eq_true_2 _ Hitem). }
    unfold segment. rewrite Hdict.
    change (language (options (addThaiWords t words)))
      with (language (options t)).
    rewrite Hth. rewrite (bool_decide_eq_true_2 (str "th" = str "th")) by done.
    simpl. unfold dictionaryTokenize. by rewrite bool_decide_eq_false_2.
Qed.

Lemma addThaiWords_switches_mode_witness :
  tokenize (E := latin_engine) (thai None) (VString (str "ab"))
  = stopwordStage (E := latin_engine) (thai None)
      (matchAll (E := latin_engine) (str "ab"))
  ∧ tokenize (E := latin_engine) (addThaiWords (thai None) (ArrayOf []))
      (VString (str "ab"))
    = stopwordStage (E := latin_engine) (thai None) (simpleTokenize (str "ab")).
Proof.
  apply (addThaiWords_switches_mode latin_engine (thai None) (ArrayOf [])
           (str "ab")); [reflexivity|reflexivity|vm_compute; discriminate|].
  intros items [= <-]. constructor.
Defined.

(** X19: the dictionary read from a file holds exactly the trimmed,
    non-blank lines of the file, each once: no empty entry, no entry with
    white space at either end, no repetition.  [loadThaiDictionarySync]
    installs it in place of the previous one and returns its size; when
    the file cannot be read it returns 0 and leaves the instance as it
    was. *)
Theorem loadDictionarySync_entries (t : Tokenizer) (data : list N) :
  wellFormed (loadDictionarySync data)
  ∧ ([] ∉ loadDictionarySync data)
  ∧ (∀ w, w ∈ loadDictionarySync data
          ↔ ∃ line, line ∈ splitLines data [] ∧ trim line ≠ [] ∧ w = trim line)
  ∧ thaiDictionary (options (loadThaiDictionarySync t (Some data)).1)
    = Some (loadDictionarySync data)
  ∧ (loadThaiDictionarySync t (Some data)).2 = length (loadDictionarySync data)
  ∧ loadThaiDictionarySync t None = (t, 0).
Proof.
  unfold loadDictionarySync.
  destruct (foldl_addLine (splitLines data []) []) as (_ & Hwf & Hmem).
  assert (Hnil : wellFormed []) by (split; [apply NoDup_nil_2|constructor]).
  split_and!; [by apply Hwf| | |done|done|done].
  - intros Hin. destruct (Hwf Hnil) as [_ Hall].
    rewrite Forall_forall in Hall. by destruct (Hall [] Hin).
  - intros w. rewrite Hmem. split; [|by right].
    intros [?%elem_of_nil|?]; done.
Qed.

Lemma properEntry_last (word : list N) :
  properEntry word → last word ≠ Some 13%N.
Proof.
  intros [_ Htrim] Hlast.
  assert (isWhiteSpace 13 = false); [|done].
  apply (trim_ends word). right. by rewrite Htrim.
Qed.

Lemma splitLines_word (word : list N) :
  10%N ∉ word →
  ∀ line, splitLines word line = [line ++ word].
Proof.
  induction word as [|c word IH]; intros Hlf line; simpl.
  - by rewrite app_nil_r.
  - apply not_elem_of_cons in Hlf as [Hc Hword].
    rewrite (proj2 (N.eqb_neq c 10)) by done.
    destruct word as [|c' word'].
    + done.
    + assert (c' ≠ 10%N) as Hc' by (intros ->; apply Hword; by left).
      rewrite (proj2 (N.eqb_neq c' 10)) by done. rewrite andb_false_r.
      rewrite IH by done. by rewrite <- app_assoc.
Qed.

Lemma splitLines_line (word : list N) (rest : list N) :
  10%N ∉ word → last word ≠ Some 13%N →
  ∀ line, splitLines (word ++ 10%N :: rest) line
          = (line ++ word) :: splitLines rest [].
Proof.
  induction word as [|c word IH]; intros Hlf Hcr line.
  - simpl. by rewrite app_nil_r.
  - apply not_elem_of_cons in Hlf as [Hc Hword].
    cbn [app splitLines]. rewrite (proj2 (N.eqb_neq c 10)) by done.
    destruct word as [|c' word'].
    + simpl in *. assert (c ≠ 13%N) as Hc13 by congruence.
      by rewrite (proj2 (N.eqb_neq c 13)) by done.
    + assert (c' ≠ 10%N) as Hc' by (intros ->; apply Hword; by left).
      cbn [app]. rewrite (proj2 (N.eqb_neq c' 10)) by done.
      rewrite andb_false_r.
      change (c' :: word' ++ 10%N :: rest) with ((c' :: word') ++ 10%N :: rest).
      rewrite IH by done. by rewrite <- app_assoc.
Qed.

Lemma splitLines_join (words : list (list N)) :
  Forall lineWord words → words ≠ [] →
  splitLines (join [10%N] words) [] = words.
Proof.
  induction 1 as [|word words [Hproper Hlf] Hwords IH]; intros Hne; [done|].
  destruct words as [|word' words'].
  - simpl. by rewrite splitLines_word.
  - change (join [10%N] (word :: word' :: words'))
      with (word ++ 10%N :: join [10%N] (word' :: words')).
    rewrite splitLines_line by (done || by apply properEntry_last).
    by rewrite IH.
Qed.

Lemma foldl_addLine_fresh (words dictionary : list (list N)) :
  Forall properEntry words → NoDup (dictionary ++ words) →
  foldl addLine dictionary words = dictionary ++ words.
Proof.
  revert dictionary.
  induction words as [|word words IH]; intros dictionary Hall Hnodup; simpl.
  - by rewrite app_nil_r.
  - apply Forall_cons in Hall as [[Hne Htrim] Hall].
    unfold addLine at 2. rewrite Htrim.
    rewrite (bool_decide_eq_false_2 _ Hne). unfold setAdd.
    rewrite bool_decide_eq_false_2.
    + rewrite IH; [by rewrite <- app_assoc|done|by rewrite <- app_assoc].
    + intros Hin. apply NoDup_app in Hnodup as (_ & Hdisjoint & _).
      apply (Hdisjoint word Hin). by left.
Qed.

(** X20: writing a list of words one per line (joined by line feeds, as
    the example scripts do) and loading the file gives the list back, in
    order, provided the words are distinct, non-empty, free of line feeds
    and of white space at their ends. *)
Theorem loadDictionarySync_join (words : list (list N)) :
  NoDup words → Forall lineWord words →
  loadDictionarySync (join [10%N] words) = words.
Proof.
  intros Hnodup Hwords. unfold loadDictionarySync.
  destruct words as [|word words]; [done|].
  rewrite splitLines_join by done.
  rewrite foldl_addLine_fresh; [done| |done].
  eapply Forall_impl; [exact Hwords|]. by intros w [? _].
Qed.

Lemma loadDictionarySync_join_witness :
  loadDictionarySync (join [10%N] [str "ab"; str "c d"; str "e"])
  = [str "ab"; str "c d"; str "e"].
Proof.
  apply loadDictionarySync_join.
  - apply (bool_decide_unpack _). vm_compute. exact I.
  - repeat constructor; try discriminate; by_evaluation.
Defined.

(** ** The stemmer, continued *)

Lemma slice_drop_last (w : list N) (k : positive) :
  length (slice w 0 (Z.neg k)) = length w - Pos.to_nat k.
Proof.
  unfold slice, clamp. simpl. rewrite drop_0, length_take. lia.
Qed.

Lemma endsWith_length (w suffix : list N) :
  endsWith w suffix = true → length suffix ≤ length w.
Proof.
  unfold endsWith. intros [Hlen _]%andb_true_iff. by apply Nat.leb_le.
Qed.

Lemma endsWith_last (w suffix : list N) :
  endsWith w suffix = true → suffix ≠ [] → last w = last suffix.
Proof.
  unfold endsWith. intros [_ Hdrop]%andb_true_iff Hne.
  apply bool_decide_eq_true in Hdrop.
  rewrite <- (take_drop (length w - length suffix) w), Hdrop.
  destruct suffix as [|c suffix]; [done|]. apply last_app_cons.
Qed.

Lemma hasVowel_nonempty (s : list N) : hasVowel s = true → 0 < length s.
Proof. destruct s; [done|simpl; lia]. Qed.

Ltac case_endsWith :=
  match goal with
  | |- context [endsWith ?w ?s] =>
      let H := fresh "Hends" in
      destruct (endsWith w s) eqn:H;
      [apply endsWith_length in H; simpl in H|]
  end.

Lemma step1a_length (w : list N) : length (step1a w) ≤ length w.
Proof.
  unfold step1a. repeat case_endsWith; rewrite ?slice_drop_last; lia.
Qed.

Lemma step1c_length (w : list N) : length (step1c w) = length w.
Proof.
  unfold step1c.
  destruct (endsWith w (str "y") && (2 <? length w)
            && negb (hasVowel (default [] (charAt w (length w - 2)))))
    eqn:Hcond; [|done].
  apply andb_true_iff in Hcond as [[_ Hlen%Nat.ltb_lt]%andb_true_iff _].
  rewrite length_app, slice_drop_last. simpl. lia.
Qed.

Lemma afterSuffix_length (w : list N) :
  length (afterSuffix w) ≤ length w + 1
  ∧ (0 < length w → 0 < length (afterSuffix w)).
Proof.
  unfold afterSuffix.
  destruct (endsWith w (str "at") || endsWith w (str "bl")
            || endsWith w (str "iz")).
  - rewrite length_app. simpl. lia.
  - destruct ((2 <? length w)
              && bool_decide (charAt w (length w - 1) = charAt w (length w - 2))
              && negb (bool_decide (charAt w (length w - 1)
                         ∈ [Some (str "l"); Some (str "s"); Some (str "z")])))
      eqn:Hcond; [|lia].
    apply andb_true_iff in Hcond as [[Hlen%Nat.ltb_lt _]%andb_true_iff _].
    rewrite slice_drop_last. lia.
Qed.

Lemma step1b_cases (w : list N) :
  step1b w = w
  ∨ (3 ≤ length w ∧ step1b w = slice w 0 (-1))
  ∨ ∃ k : positive,
      step1b w = afterSuffix (slice w 0 (Z.neg k))
      ∧ Pos.to_nat k ≤ length w ∧ 2 ≤ Pos.to_nat k
      ∧ hasVowel (slice w 0 (Z.neg k)) = true.
Proof.
  unfold step1b. fold (afterSuffix (slice w 0 (-2))).
  fold (afterSuffix (slice w 0 (-3))).
  destruct (endsWith w (str "eed")) eqn:Heed.
  { right. left. apply endsWith_length in Heed. simpl in Heed. done. }
  destruct (endsWith w (str "ed")) eqn:Hed.
  - assert (Hing : endsWith w (str "ing") = false).
    { destruct (endsWith w (str "ing")) eqn:Hing; [|done].
      apply endsWith_last in Hed; [|done]. apply endsWith_last in Hing; [|done].
      rewrite Hed in Hing. discriminate. }
    rewrite Hing. simpl.
    destruct (hasVowel (slice w 0 (-2))) eqn:Hv; simpl; [|by left].
    right. right. exists 2%positive. apply endsWith_length in Hed.
    simpl in Hed. split_and!; [done|lia|lia|done].
  - simpl. destruct (endsWith w (str "ing")) eqn:Hing; simpl; [|by left].
    destruct (hasVowel (slice w 0 (-3))) eqn:Hv; simpl; [|by left].
    right. right. exists 3%positive. apply endsWith_length in Hing.
    simpl in Hing. split_and!; [done|lia|lia|done].
Qed.

Lemma step1b_length (w : list N) :
  length (step1b w) ≤ length w ∧ (0 < length w → 0 < length (step1b w)).
Proof.
  destruct (step1b_cases w) as [->|[[Hlen ->]|(k & -> & Hk & Hk2 & Hv)]].
  - done.
  - rewrite slice_drop_last. lia.
  - apply hasVowel_nonempty in Hv.
    destruct (afterSuffix_length (slice w 0 (Z.neg k))) as [Hle Hpos].
    rewrite slice_drop_last in *. split; [lia|]. intros _. by apply Hpos.
Qed.

(** X21: stemming never makes a word longer than its lowercase form. *)
Theorem stemToken_length (E : Engine) (token : list N) :
  length (stemToken token) ≤ length (toLowerCase token).
Proof.
  unfold stemToken. case_bool_decide; [simpl; lia|].
  rewrite step1c_length.
  etrans; [apply step1b_length|]. apply step1a_length.
Qed.

Lemma step1a_empty (w : list N) : step1a w = [] ↔ w = [] ∨ w = str "s".
Proof.
  split; [|by intros [-> | ->]].
  intros Hnil. apply (f_equal length) in Hnil. revert Hnil. unfold step1a.
  destruct (endsWith w (str "sses")) eqn:H1.
  { apply endsWith_length in H1. rewrite slice_drop_last. simpl in *. lia. }
  destruct (endsWith w (str "ies")) eqn:H2.
  { apply endsWith_length in H2. rewrite slice_drop_last. simpl in *. lia. }
  destruct (endsWith w (str "ss")) eqn:H3.
  { apply endsWith_length in H3. simpl in *. lia. }
  destruct (endsWith w (str "s")) eqn:H4.
  - rewrite slice_drop_last. simpl. intros Hlen. right.
    unfold endsWith in H4. apply andb_true_iff in H4 as [Hle Hdrop].
    apply Nat.leb_le in Hle. apply bool_decide_eq_true in Hdrop.
    simpl in Hle, Hdrop.
    replace (length w - 1) with 0 in Hdrop by lia. by rewrite drop_0 in Hdrop.
  - intros Hlen. left. by destruct w.
Qed.

(** X22: the stemmer returns the empty string for the empty token, for a
    token whose lowercase form is empty, and for the token "s" in either
    case, and for nothing else: every other token keeps at least one
    character. *)
Theorem stemToken_empty (E : Engine) (token : list N) :
  stemToken token = []
  ↔ token = [] ∨ toLowerCase token = [] ∨ toLowerCase token = str "s".
Proof.
  unfold stemToken. case_bool_decide as Htoken; [by split; [left|]|].
  assert (Hlen : ∀ w : list N, w = [] ↔ length w = 0).
  { intros w. by destruct w. }
  rewrite (Hlen (step1c _)), step1c_length.
  destruct (step1b_length (step1a (toLowerCase token))) as [_ Hpos].
  split.
  - intros H0. right. apply step1a_empty. apply Hlen. lia.
  - intros [?|Hlow]; [done|]. apply step1a_empty in Hlow. by rewrite Hlow.
Qed.

(** ** The universal word pattern, continued *)

(** Decoding to code points and encoding back is the identity on UTF-16
    text. *)
Lemma codePoints_pair (hi lo : N) (rest : list N) :
  codePoints (hi :: lo :: rest)
  = if isHighSurrogate hi && isLowSurrogate lo
    then (0x10000 + (hi - 0xD800) * 0x400 + (lo - 0xDC00))%N :: codePoints rest
    else hi :: codePoints (lo :: rest).
Proof. done. Qed.

Lemma codePoints_codeUnits (text : list N) :
  Forall (λ c, (c < 0x10000)%N) text → codePoints text ≫= codeUnits = text.
Proof.
  remember (length text) as n eqn:Hn. revert text Hn.
  induction (lt_wf n) as [n _ IH]; intros text -> Hunits.
  destruct text as [|hi [|lo rest]]; [done| |].
  - apply Forall_cons in Hunits as [Hhi _]. cbn [codePoints].
    rewrite bind_singleton. unfold codeUnits.
    by rewrite (proj2 (N.ltb_lt _ _) Hhi).
  - apply Forall_cons in Hunits as [Hhi Hrest]. rewrite codePoints_pair.
    destruct (isHighSurrogate hi && isLowSurrogate lo) eqn:Hpair.
    + apply Forall_cons in Hrest as [Hlo Hrest]. rewrite bind_cons.
      rewrite (IH (length rest) ltac:(simpl; lia) rest eq_refl Hrest).
      apply andb_true_iff in Hpair as [Hh Hl].
      unfold isHighSurrogate in Hh. unfold isLowSurrogate in Hl.
      apply andb_true_iff in Hh as [Hh1%N.leb_le Hh2%N.leb_le].
      apply andb_true_iff in Hl as [Hl1%N.leb_le Hl2%N.leb_le].
      unfold codeUnits.
      rewrite (proj2 (N.ltb_ge _ _)) by lia.
      replace (0x10000 + (hi - 0xD800) * 0x400 + (lo - 0xDC00) - 0x10000)%N
        with (0x400 * (hi - 0xD800) + (lo - 0xDC00))%N by lia.
      rewrite <- (N.div_unique _ 0x400 (hi - 0xD800) (lo - 0xDC00)) by lia.
      rewrite <- (N.mod_unique _ 0x400 (hi - 0xD800) (lo - 0xDC00)) by lia.
      simpl. do 2 f_equal; lia.
    + rewrite bind_cons.
      rewrite (IH (length (lo :: rest)) ltac:(simpl; lia) (lo :: rest) eq_refl Hrest).
      unfold codeUnits. by rewrite (proj2 (N.ltb_lt _ _) Hhi).
Qed.

Section InOrder.
Context {E : Engine}.

Lemma matchRun_sublist (cps : list N) (st : matcher) :
  concat (matchRun st cps) `sublist_of` pending st ++ cps.
Proof.
  revert st. induction cps as [|c cps IH]; intros st; cbn [matchRun].
  - destruct st; simpl; rewrite ?app_nil_r; try done.
    by apply sublist_inserts_r.
  - unfold advance.
    destruct (general_category c), st as [|word marks|digits];
      cbn [flush concat app pending];
      match goal with
      | |- context [matchRun ?st' cps] => pose proof (IH st') as Hnext
      end; cbn [pending app] in Hnext; rewrite ?app_nil_r in *.
    + done.
    + by rewrite <- !app_assoc in *.
    + apply sublist_app; [done|]. exact Hnext.
    + by apply sublist_cons.
    + by rewrite <- !app_assoc in *.
    + apply sublist_app; [done|]. by apply sublist_cons.
    + done.
    + rewrite <- app_assoc. apply sublist_app; [done|].
      by apply sublist_inserts_l.
    + by rewrite <- !app_assoc in *.
    + by apply sublist_cons.
    + rewrite <- app_assoc. apply sublist_app; [done|].
      apply sublist_inserts_l. by apply sublist_cons.
    + apply sublist_app; [done|]. by apply sublist_cons.
Qed.

End InOrder.

(** X23: the tokens of the universal word pattern are taken from the
    text in order: concatenated, they form a subsequence of its code
    units, so nothing is added, repeated or moved. *)
Theorem matchAll_in_order (E : Engine) (text : list N) :
  Forall (λ c, (c < 0x10000)%N) text →
  concat (matchAll text) `sublist_of` text.
Proof.
  intros Hunits. unfold matchAll.
  assert (Hconcat : ∀ ms : list (list N),
    concat ((λ m, m ≫= codeUnits) <$> ms) = concat ms ≫= codeUnits).
  { induction ms as [|m ms IH]; [done|].
    cbn [fmap list_fmap concat]. by rewrite bind_app, IH. }
  rewrite Hconcat. rewrite <- (codePoints_codeUnits text Hunits) at 2.
  apply bind_sublist. apply (matchRun_sublist (codePoints text) Idle).
Qed.

Lemma matchAll_in_order_witness :
  concat (matchAll (E := latin_engine) (str "ab, c1"))
  `sublist_of` str "ab, c1".
Proof.
  apply (matchAll_in_order latin_engine). by_evaluation.
Defined.

(** ** The dictionary and its words *)

(** X24: a text that is itself a dictionary entry is segmented as that one
    word. *)
Theorem dictionaryTokenize_entry (text : list N) (dictionary : list (list N)) :
  text ∈ dictionary → text ≠ [] →
  dictionaryTokenize text (Some dictionary) = [text].
Proof.
  intros Hin Htext. unfold dictionaryTokenize.
  rewrite bool_decide_eq_false_2 by done.
  destruct dictionary as [|w ws]; [by apply elem_of_nil in Hin|].
  simpl (length _ =? 0). cbv iota. set (d := w :: ws) in *.
  rewrite segmentLoop_unfold by done.
  assert (Hself : startsWith text text = true) by by apply startsWith_prefix.
  pose proof (iteration_longest d text text Htext Hin Hself) as Hlong.
  pose proof (iteration_split d text Htext) as Hs.
  destruct (iteration d text) as [token rest]. simpl in *.
  destruct Hs as (spaces & Hsplit & _).
  pose proof (f_equal length Hsplit) as Hlen. rewrite !length_app in Hlen.
  assert (spaces = []) as -> by (destruct spaces; [done|simpl in Hlen; lia]).
  assert (rest = []) as -> by (destruct rest; [done|simpl in Hlen; lia]).
  simpl in Hsplit. rewrite app_nil_r in Hsplit. subst token.
  by simp segmentLoop.
Qed.

Lemma dictionaryTokenize_entry_witness :
  dictionaryTokenize (str "abc") (Some [str "a"; str "abc"; str "ab"])
  = [str "abc"].
Proof.
  apply dictionaryTokenize_entry; [by_evaluation|discriminate].
Defined.

Lemma foldl_addLine_present (lines dictionary : list (list N)) :
  (∀ s, s ∈ lines → trim s ≠ [] → trim s ∈ dictionary) →
  foldl addLine dictionary lines = dictionary.
Proof.
  induction lines as [|line lines IH]; intros Hall; [done|].
  simpl. assert (Hline : addLine dictionary line = dictionary).
  { unfold addLine. case_bool_decide as Hblank; [done|].
    unfold setAdd. rewrite bool_decide_eq_true_2; [done|].
    apply Hall; [by left|done]. }
  rewrite Hline. apply IH. intros s Hs. apply Hall. by right.
Qed.

(** X25: adding the same words a second time changes nothing: the
    dictionary is a set. *)
Theorem addThaiWords_again (t : Tokenizer) (words : argument) :
  addThaiWords (addThaiWords t words) words = addThaiWords t words.
Proof.
  unfold addThaiWords at 1.
  destruct words as [|items]; [done|].
  set (t' := addThaiWords t (ArrayOf items)).
  assert (Hkeep : foldl addThaiWord (default [] (thaiDictionary (options t')))
                    items
                  = default [] (thaiDictionary (options t'))).
  { rewrite foldl_addThaiWord. apply foldl_addLine_present.
    intros s Hs Hne. unfold t', addThaiWords. simpl.
    rewrite foldl_addThaiWord. apply foldl_addLine. right. by exists s. }
  rewrite Hkeep. by unfold t', addThaiWords, setDictionary.
Qed.

(** ** The stemming stage in the two versions *)

Section StemmingStage.
Context {E : Engine}.

Lemma legacy_tokenize_string (t : Tokenizer) (s : list N) :
  s ≠ [] →
  Legacy.tokenize t (VString s)
  = Legacy.stemmingStage t
      (stopwordStage t
         (lowercaseStage t
            (if bool_decide (language (options t) = str "th")
                && bool_decide (is_Some (thaiDictionary (options t)))
             then Legacy.tokenizeThai t s else matchAll s))).
Proof.
  intros Hs. unfold Legacy.tokenize. simpl.
  by rewrite bool_decide_eq_false_2.
Qed.

(** What the modular [tokenize] returns once stemming is enabled: the
    tokens of the earlier stages, stemmed if the language is listed and as
    they are otherwise. *)
Lemma tokenize_stemming_on (t : Tokenizer) (s : list N) :
  s ≠ [] → stemming (options t) = true →
  tokenize t (VString s)
  = if bool_decide (language (options t) ∈ stemmable)
    then stemToken <$> stopwordStage t (lowercaseStage t (segment t s))
    else stopwordStage t (lowercaseStage t (segment t s)).
Proof.
  intros Hs Hon. rewrite tokenize_string by done.
  unfold stemmingStage, includes. by rewrite Hon.
Qed.

(** The text "running dogs" before stemming, for a language that is not th
    and an instance that keeps stopwords. *)
Lemma running_dogs `{!BasicLatin E} (t : Tokenizer) :
  language (options t) ≠ str "th" → lowercase (options t) = true →
  removeStopwords (options t) = false →
  stopwordStage t (lowercaseStage t (segment t (str "running dogs")))
  = [str "running"; str "dogs"].
Proof.
  intros Hth Hfold Hkeep. unfold stopwordStage, lowercaseStage, segment.
  rewrite Hkeep, Hfold, (bool_decide_eq_false_2 _ Hth). cbn [andb negb].
  rewrite matchAll_latin by (done || by_evaluation).
  replace (matchAll (E := latin_engine) (str "running dogs"))
    with [str "running"; str "dogs"] by (vm_compute; reflexivity).
  cbn [fmap list_fmap]. rewrite !toLowerCase_latin by by_evaluation.
  vm_compute. reflexivity.
Qed.

Lemma stem_running_dogs `{!BasicLatin E} :
  stemToken <$> [str "running"; str "dogs"] = [str "run"; str "dog"].
Proof.
  cbn [fmap list_fmap]. unfold stemToken.
  rewrite !toLowerCase_latin by by_evaluation. vm_compute. reflexivity.
Qed.

End StemmingStage.

(** C6 at the language ru, which is not in the list, with stemming
    enabled: the modular [tokenize] returns the tokens of "running dogs"
    unstemmed, as it stems them for en; the single-file version, whose
    stage exempts th only, stems them. *)
Theorem legacy_stems_outside_whitelist (E : Engine) (HE : BasicLatin E)
    (words : gset (list N)) :
  let russian := {| options := stemming_for (str "ru"); stopwords := words |} in
  let english' := {| options := stemming_for (str "en"); stopwords := words |} in
  (str "ru" ∉ stemmable)
  ∧ Legacy.tokenize russian (VString (str "running dogs"))
    = [str "run"; str "dog"]
  ∧ tokenize russian (VString (str "running dogs"))
    = [str "running"; str "dogs"]
  ∧ tokenize english' (VString (str "running dogs"))
    = [str "run"; str "dog"].
Proof.
  intros russian english'.
  assert (Hru : str "ru" ∉ stemmable) by by_evaluation.
  assert (Hne : str "running dogs" ≠ []) by (vm_compute; discriminate).
  assert (Hnot_th : str "ru" ≠ str "th") by (vm_compute; discriminate).
  split_and!.
  - exact Hru.
  - rewrite legacy_tokenize_string by done.
    change (language (options russian)) with (str "ru").
    rewrite (bool_decide_eq_false_2 _ Hnot_th). cbn [andb].
    fold (segment russian (str "running dogs")).
    assert (Hseg : matchAll (str "running dogs")
                   = segment russian (str "running dogs")).
    { unfold segment. change (language (options russian)) with (str "ru").
      by rewrite (bool_decide_eq_false_2 _ Hnot_th). }
    rewrite Hseg, running_dogs by done.
    unfold Legacy.stemmingStage.
    change (language (options russian)) with (str "ru").
    rewrite (bool_decide_eq_false_2 _ Hnot_th).
    change (stemming (options russian)) with true. cbn [andb negb].
    apply stem_running_dogs.
  - rewrite tokenize_stemming_on by done.
    change (language (options russian)) with (str "ru").
    rewrite (bool_decide_eq_false_2 _ Hru). by apply running_dogs.
  - rewrite tokenize_stemming_on by done.
    change (language (options english')) with (str "en").
    rewrite bool_decide_eq_true_2 by by_evaluation.
    rewrite running_dogs; [apply stem_running_dogs| |done|done].
    vm_compute. discriminate.
Qed.

Lemma legacy_stems_outside_whitelist_witness :
  Legacy.tokenize (E := latin_engine)
    {| options := stemming_for (str "ru"); stopwords := ∅ |}
    (VString (str "running dogs"))
  = [str "run"; str "dog"]
  ∧ tokenize (E := latin_engine)
      {| options := stemming_for (str "ru"); stopwords := ∅ |}
      (VString (str "running dogs"))
    = [str "running"; str "dogs"].
Proof.
  destruct (legacy_stems_outside_whitelist latin_engine latin_engine_faithful ∅)
    as (_ & Hlegacy & Hmodular & _).
  split; [exact Hlegacy|exact Hmodular].
Defined.
